(** * Batch builder and training loop of [algos/dqn.py]

    A shallow embedding of [create_batch] and of the epoch loop of the
    [__main__] block.

    - Python and numpy floats are exact rationals [Q]: rounding, nan and the
      cast of a target scalar to the array's element type are not modelled.
    - The environment, the value model and numpy's random generator are
      external collaborators: section variables, with the state of the
      environment and of the generator passed explicitly.
    - A Python exception is a result of the error monad [outcome].
    - The [while True] play loop is driven by fuel, one unit per pass.
    - A numpy vector is a [list Q], updated by index with stdpp's insert
      behind the bounds check numpy makes. *)

From Stdlib Require Import QArith ZArith Lia.
From stdpp Require Import base numbers list.

(** ** Outcomes of running Python code *)

Inductive exn : Type := ValueError | IndexError.

Inductive outcome (A : Type) : Type :=
| Ok (a : A)
| Raise (e : exn)
| OutOfFuel.
Arguments Ok {A} a.
Arguments Raise {A} e.
Arguments OutOfFuel {A}.

#[global] Instance outcome_ret : MRet outcome := @Ok.
#[global] Instance outcome_bind : MBind outcome := λ A B f m,
  match m with
  | Ok a => f a
  | Raise e => Raise e
  | OutOfFuel => OutOfFuel
  end.

(** ** Numeric helpers: builtin [max], [np.argmax], [np.max], [np.min], [np.mean] *)

Definition Qltb (x y : Q) : bool := negb (Qle_bool y x).

(** Left-to-right scan keeping the first largest item, as [max(iterable)]. *)
Definition max_scan (x : Q) (xs : list Q) : Q :=
  fold_left (λ m y, if Qltb m y then y else m) xs x.

Definition min_scan (x : Q) (xs : list Q) : Q :=
  fold_left (λ m y, if Qltb y m then y else m) xs x.

(** [max(v)]: [ValueError] on an empty sequence. *)
Definition py_max (v : list Q) : outcome Q :=
  match v with
  | [] => Raise ValueError
  | x :: xs => Ok (max_scan x xs)
  end.

(** [np.max(v)]: [ValueError] on a zero-size array ("zero-size array to
    reduction operation maximum which has no identity"). *)
Definition np_max (v : list Q) : outcome Q := py_max v.

(** [np.mean(v)]: no exception on an empty array, numpy warns and returns
    nan, which is [None] here. *)
Definition np_mean (v : list Q) : option Q :=
  match v with
  | [] => None
  | _ => Some (fold_left Qplus v 0 / inject_Z (Z.of_nat (length v)))%Q
  end.

(** [np.argmax(v)]: index of the first occurrence of the largest entry. *)
Fixpoint argmax_scan (best_i : nat) (best : Q) (i : nat) (xs : list Q) : nat :=
  match xs with
  | [] => best_i
  | y :: ys =>
      if Qltb best y then argmax_scan i y (S i) ys
      else argmax_scan best_i best (S i) ys
  end.

Definition np_argmax (v : list Q) : outcome nat :=
  match v with
  | [] => Raise ValueError
  | x :: xs => Ok (argmax_scan 0 x 1 xs)
  end.

(** [target_q[action] = R] on a one-dimensional array: [IndexError] when the
    index is out of bounds ([action] is never negative here). *)
Definition np_setitem (v : list Q) (i : nat) (x : Q) : outcome (list Q) :=
  if decide (i < length v) then Ok (<[i:=x]> v) else Raise IndexError.

(** ** The batch builder *)

(** A transition is the tuple [(state, q_value, action, reward)], a training
    sample the tuple [(state, target_q)]. *)
Abbreviation transition Obs := (Obs * list Q * nat * Q)%type (only parsing).
Abbreviation sample Obs := (Obs * list Q)%type (only parsing).

Section BatchBuilder.

(** Stacked states, the environment's internal state, the generator's state. *)
Variables Obs Env Rng : Type.

(** [env.reset()] and [env.step(action)]: the step returns
    [(next_state, reward, done)]. *)
Variable env_reset : Env → Obs * Env.
Variable env_step : nat → Env → (Obs * Q * bool) * Env.

(** [run_model.predict_on_batch(np.array([state]))[0]]; the model is only
    read while a batch is built. *)
Variable predict_on_batch : Obs → list Q.

(** [np.random.random()], and the raw draw behind [np.random.randint] and
    [np.random.shuffle]. *)
Variable rng_random : Rng → Q * Rng.
Variable rng_draw : Rng → nat * Rng.

(** [np.random.randint(0, n)]: [ValueError] when [n = 0] (low >= high),
    else a value in [0, n). *)
Definition randint0 (n : nat) (g : Rng) : outcome (nat * Rng) :=
  match n with
  | 0 => Raise ValueError
  | S _ => let '(r, g) := rng_draw g in Ok (r mod n, g)
  end.

(** Lines 60-64: epsilon-greedy choice of the action. *)
Definition choose_action (tau : Q) (q_value : list Q) (g : Rng)
  : outcome (nat * Rng) :=
  let '(u, g) := rng_random g in
  if Qltb u tau then randint0 (length q_value) g
  else action ← np_argmax q_value; Ok (action, g).

(** The local variables at the exit of the [while True] loop. *)
Record play_end : Type := PlayEnd {
  pe_episode : list (transition Obs);
  pe_state : Obs;
  pe_step : Z;
  pe_sum_reward : Q;
  pe_done : bool;
  pe_last_q : option (list Q);
  pe_env : Env;
  pe_rng : Rng
}.

(** Lines 58-81.  One unit of fuel is one pass through the loop body,
    that is one call of [env.step]. *)
Fixpoint play_loop (fuel : nat) (steps_limit : option Z) (gamma tau : Q)
    (env : Env) (g : Rng) (state : Obs) (step : Z) (sum_reward : Q)
    (episode : list (transition Obs)) : outcome play_end :=
  match fuel with
  | 0 => OutOfFuel
  | S fuel =>
      let q_value := predict_on_batch state in
      '(action, g) ← choose_action tau q_value g;
      let '(next_state, reward, done, env) := env_step action env in
      let episode := episode ++ [(state, q_value, action, reward)] in
      let sum_reward := (reward + gamma * sum_reward)%Q in
      let state := next_state in
      let step := (step + 1)%Z in
      if done then
        Ok (PlayEnd episode state step sum_reward done None env g)
      else if bool_decide (steps_limit = Some step) then
        Ok (PlayEnd episode state step sum_reward done
              (Some (predict_on_batch state)) env g)
      else
        play_loop fuel steps_limit gamma tau env g state step sum_reward episode
  end.

(** Lines 84-87: the seed of the running return. *)
Definition R_sum_init (last_q : option (list Q)) : outcome Q :=
  match last_q with
  | None => Ok 0%Q
  | Some v => py_max v
  end.

(** Lines 92-97: the target scalar [R] of one transition. *)
Definition target_scalar (n_steps : bool) (gamma R_sum reward : Q)
    (last_q : option (list Q)) : outcome Q :=
  if n_steps then Ok R_sum
  else match last_q with
       | None => Ok reward
       | Some v => m ← py_max v; Ok (reward + gamma * m)%Q
       end.

(** Lines 89-101: the backward scan over [reversed(episode)]. *)
Fixpoint unroll (n_steps : bool) (gamma : Q) (rev_episode : list (transition Obs))
    (R_sum : Q) (last_q : option (list Q)) (samples : list (sample Obs))
  : outcome (list (sample Obs)) :=
  match rev_episode with
  | [] => Ok samples
  | (state, q_value, action, reward) :: rest =>
      let R_sum := (R_sum * gamma + reward)%Q in
      R ← target_scalar n_steps gamma R_sum reward last_q;
      target_q ← np_setitem q_value action R;
      unroll n_steps gamma rest R_sum (Some q_value)
        (samples ++ [(state, target_q)])
  end.

(** Lines 84-101 for one episode. *)
Definition episode_targets (n_steps : bool) (gamma : Q)
    (episode : list (transition Obs)) (last_q : option (list Q))
    (samples : list (sample Obs)) : outcome (list (sample Obs)) :=
  R_sum ← R_sum_init last_q;
  unroll n_steps gamma (reverse episode) R_sum last_q samples.

(** Lines 53-101: the loop over [range(num_episodes)]. *)
Fixpoint episodes_loop (fuel : nat) (count : nat) (n_steps : bool)
    (steps_limit : option Z) (gamma tau : Q) (env : Env) (g : Rng)
    (samples : list (sample Obs)) (rewards : list Q)
  : outcome (list (sample Obs) * list Q * Env * Rng) :=
  match count with
  | 0 => Ok (samples, rewards, env, g)
  | S count =>
      let '(state, env) := env_reset env in
      r ← play_loop fuel steps_limit gamma tau env g state 0%Z 0%Q [];
      samples ← episode_targets n_steps gamma (pe_episode r) (pe_last_q r) samples;
      episodes_loop fuel count n_steps steps_limit gamma tau
        (pe_env r) (pe_rng r) samples (rewards ++ [pe_sum_reward r])
  end.

(** [x[i], x[j] = x[j], x[i]] *)
Definition swap_items {A : Type} (x : list A) (i j : nat) : list A :=
  match x !! i, x !! j with
  | Some xi, Some xj => <[j:=xi]> (<[i:=xj]> x)
  | _, _ => x
  end.

(** [np.random.shuffle(x)] on a Python list: for [i] from [len(x) - 1]
    down to 1, draw [j] in [0, i] and swap the items at [i] and [j]. *)
Fixpoint shuffle_down {A : Type} (i : nat) (x : list A) (g : Rng)
  : list A * Rng :=
  match i with
  | 0 => (x, g)
  | S i' =>
      let '(r, g) := rng_draw g in
      shuffle_down i' (swap_items x i (r mod S i)) g
  end.

Definition np_shuffle {A : Type} (x : list A) (g : Rng) : list A * Rng :=
  shuffle_down (length x - 1) x g.

(** The record passed to [logger.info]: iteration, sample count, mean and
    max of the per-episode [sum_reward]. *)
Record log_record : Type := LogRecord {
  log_iter : Z;
  log_samples : nat;
  log_mean : option Q;
  log_max : Q
}.

Record batch : Type := Batch {
  b_states : list Obs;
  b_targets : list (list Q);
  b_log : log_record;
  b_env : Env;
  b_rng : Rng
}.

(** [create_batch], lines 41-107.  The arguments of [logger.info] are
    evaluated before the call, whatever the logging level; the final
    [zip] over the unpacked samples separates the states from the target
    vectors. *)
Definition create_batch (fuel : nat) (iter_no : Z) (env : Env) (g : Rng)
    (num_episodes : Z) (n_steps : bool) (steps_limit : option Z)
    (gamma tau : Q) : outcome batch :=
  '(samples, rewards, env, g) ←
    episodes_loop fuel (Z.to_nat num_episodes) n_steps steps_limit gamma tau
      env g [] [];
  let mean := np_mean rewards in
  mx ← np_max rewards;
  let log := LogRecord iter_no (length samples) mean mx in
  let '(samples, g) := np_shuffle samples g in
  Ok (Batch samples.*1 samples.*2 log env g).

End BatchBuilder.

Arguments PlayEnd {Obs Env Rng}.
Arguments pe_episode {Obs Env Rng}.
Arguments pe_state {Obs Env Rng}.
Arguments pe_step {Obs Env Rng}.
Arguments pe_sum_reward {Obs Env Rng}.
Arguments pe_done {Obs Env Rng}.
Arguments pe_last_q {Obs Env Rng}.
Arguments pe_env {Obs Env Rng}.
Arguments pe_rng {Obs Env Rng}.
Arguments Batch {Obs Env Rng}.
Arguments b_states {Obs Env Rng}.
Arguments b_targets {Obs Env Rng}.
Arguments b_log {Obs Env Rng}.
Arguments b_env {Obs Env Rng}.
Arguments b_rng {Obs Env Rng}.
Arguments R_sum_init : clear implicits.
Arguments target_scalar : clear implicits.
Arguments unroll {Obs}.
Arguments episode_targets {Obs}.
Arguments swap_items {A}.
Arguments shuffle_down {Rng} rng_draw {A}.
Arguments np_shuffle {Rng} rng_draw {A}.
Arguments randint0 {Rng}.
Arguments choose_action {Rng}.
Arguments play_loop {Obs Env Rng}.
Arguments episodes_loop {Obs Env Rng}.
Arguments create_batch {Obs Env Rng}.

(** ** The training loop of the [__main__] block *)

Section Training.

Variables Obs Env Rng Model : Type.
Variable env_reset : Env → Obs * Env.
Variable env_step : nat → Env → (Obs * Q * bool) * Env.
Variable rng_random : Rng → Q * Rng.
Variable rng_draw : Rng → nat * Rng.

(** [model.predict_on_batch] for the current parameters. *)
Variable predict : Model → Obs → list Q.

(** [model.fit(batch, target_y, verbose=0, batch_size=128)]: updates the
    parameters and returns [p_h.history['loss']], one loss per epoch the
    call ran, so at least one. *)
Variable fit : list Obs → list (list Q) → Model → (Q * list Q) * Model.

Definition epoch_limit : nat := 10.

(** [step_limit = 300], or [None] when a monitor directory is given. *)
Definition step_limit (monitor : bool) : option Z :=
  if monitor then None else Some 300%Z.

(** [start_loss / loss > 1.5].  Both operands are numpy float64 scalars
    ([np.max], [np.min]), for which a division by zero does not raise: it
    gives inf for a positive numerator and -inf or nan otherwise. *)
Definition ratio_exceeds (start_loss loss : Q) : bool :=
  if Qeq_bool loss 0 then Qltb 0 start_loss
  else Qltb (3 # 2) (start_loss / loss).

(** Lines 148-159: [for epoch in range(epoch_limit)].  [fits] counts the
    calls of [model.fit] made so far. *)
Fixpoint epoch_loop (epochs : nat) (states : list Obs)
    (targets : list (list Q)) (model : Model) (start_loss : option Q)
    (fits : nat) : Model * nat :=
  match epochs with
  | 0 => (model, fits)
  | S epochs =>
      let '(history, model) := fit states targets model in
      let loss := min_scan history.1 history.2 in
      match start_loss with
      | None =>
          epoch_loop epochs states targets model
            (Some (max_scan history.1 history.2)) (S fits)
      | Some s =>
          if ratio_exceeds s loss then (model, S fits)
          else epoch_loop epochs states targets model start_loss (S fits)
      end
  end.

Definition fit_batch (states : list Obs) (targets : list (list Q))
    (model : Model) : Model * nat :=
  epoch_loop epoch_limit states targets model None 0.

(** Lines 144-159: [for iter in range(args.iters)]. *)
Fixpoint train_loop (fuel : nat) (iters : nat) (iter : Z) (n_steps : bool)
    (tau : Q) (monitor : bool) (env : Env) (g : Rng) (model : Model)
  : outcome (Model * Env * Rng) :=
  match iters with
  | 0 => Ok (model, env, g)
  | S iters =>
      b ← create_batch env_reset env_step (predict model) rng_random rng_draw
            fuel iter env g 20%Z n_steps (step_limit monitor) 1%Q tau;
      let '(model, _) := fit_batch (b_states b) (b_targets b) model in
      train_loop fuel iters (iter + 1)%Z n_steps tau monitor
        (b_env b) (b_rng b) model
  end.

End Training.

Arguments epoch_loop {Obs Model}.
Arguments fit_batch {Obs Model}.

(** ** Specification-level views of a trajectory *)

Section Views.

Context {Obs : Type}.

Definition state_of (tr : transition Obs) : Obs := tr.1.1.1.
Definition q_of (tr : transition Obs) : list Q := tr.1.1.2.
Definition action_of (tr : transition Obs) : nat := tr.1.2.
Definition reward_of (tr : transition Obs) : Q := tr.2.

(** The chosen action indexes the recorded prediction. *)
Definition wf_transition (tr : transition Obs) : Prop :=
  action_of tr < length (q_of tr).

(** Sum of the rewards of a trajectory. *)
Definition sum_rewards (l : list (transition Obs)) : Q :=
  foldr (λ tr acc, reward_of tr + acc)%Q 0%Q l.

(** The running return after the backward scan has consumed [l]. *)
Definition R_after (gamma R : Q) (l : list (transition Obs)) : Q :=
  fold_left (λ R tr, R * gamma + reward_of tr)%Q l R.

(** The variable [last_q] after the backward scan has consumed [l]. *)
Definition lq_after (last_q : option (list Q)) (l : list (transition Obs))
  : option (list Q) :=
  match last l with
  | Some tr => Some (q_of tr)
  | None => last_q
  end.

(** The vector [last_q] holds when the backward scan reaches transition
    [i] of the episode (in forward time): the prediction recorded for its
    successor, or what the play loop left for the last transition. *)
Definition next_q (ep : list (transition Obs)) (last_q : option (list Q))
    (i : nat) : option (list Q) :=
  match ep !! S i with
  | Some tr => Some (q_of tr)
  | None => last_q
  end.

(** The backward scan appends the samples of an episode last transition
    first: the sample of transition [i] (in forward time) among the samples
    [new] of its episode. *)
Definition sample_of (new : list (sample Obs)) (i : nat)
  : option (sample Obs) :=
  reverse new !! i.

(** The entry of a sample's target vector at an action's index. *)
Definition target_at (smp : sample Obs) (action : nat) : option Q :=
  smp.2 !! action.

End Views.

#[global] Instance Q_eq_dec : EqDecision Q.
Proof. solve_decision. Defined.

(** Positions at which two vectors disagree. *)
Definition differing (p t : list Q) : list nat :=
  filter (λ i, p !! i ≠ t !! i) (seq 0 (max (length p) (length t))).

(** The episodes a call of [create_batch] plays, in order: the play loops
    of [episodes_loop] alone, on the same environment and generator. *)
Section Played.

Context {Obs Env Rng : Type}.
Variable env_reset : Env → Obs * Env.
Variable env_step : nat → Env → (Obs * Q * bool) * Env.
Variable predict_on_batch : Obs → list Q.
Variable rng_random : Rng → Q * Rng.
Variable rng_draw : Rng → nat * Rng.

Fixpoint played_episodes (fuel : nat) (count : nat) (steps_limit : option Z)
    (gamma tau : Q) (env : Env) (g : Rng)
  : outcome (list (@play_end Obs Env Rng)) :=
  match count with
  | 0 => Ok []
  | S count =>
      let '(state, env) := env_reset env in
      r ← play_loop env_step predict_on_batch rng_random rng_draw
            fuel steps_limit gamma tau env g state 0%Z 0%Q [];
      rest ← played_episodes fuel count steps_limit gamma tau (pe_env r) (pe_rng r);
      Ok (r :: rest)
  end.

Definition episode_lengths (eps : list (@play_end Obs Env Rng)) : list nat :=
  (λ r, length (pe_episode r)) <$> eps.

End Played.

(** The losses the epoch loop sees: the model before epoch [e] (counted
    from 0) and the loss history of that epoch's [fit] call. *)
Section EpochViews.

Context {Obs Model : Type}.
Variable fit : list Obs → list (list Q) → Model → (Q * list Q) * Model.
Variable states : list Obs.
Variable targets : list (list Q).

Fixpoint model_before (e : nat) (model : Model) : Model :=
  match e with
  | 0 => model
  | S e => model_before e (fit states targets model).2
  end.

Definition history_of (e : nat) (model : Model) : Q * list Q :=
  (fit states targets (model_before e model)).1.

Definition epoch_max (e : nat) (model : Model) : Q :=
  max_scan (history_of e model).1 (history_of e model).2.

Definition epoch_min (e : nat) (model : Model) : Q :=
  min_scan (history_of e model).1 (history_of e model).2.

(** The ratio of the first epoch's maximum loss to the minimum loss of
    epoch [e] exceeds 1.5. *)
Definition exceeds (e : nat) (model : Model) : bool :=
  ratio_exceeds (epoch_max 0 model) (epoch_min e model).

End EpochViews.

(** ** Deterministic collaborators for concrete runs

    The environment returns observation 0 and reward 1 at every step and
    reports done after exactly [horizon] steps (never when [horizon = 0]);
    the model predicts [[1; 0]] everywhere; [random()] always returns 1, so
    the policy is greedy for every [tau <= 1]; the raw draws count up. *)
Module Stub.

Definition env_reset (e : nat) : nat * nat := (0, 0).

Definition env_step (horizon : nat) (action : nat) (e : nat)
  : (nat * Q * bool) * nat :=
  ((0, 1%Q, S e =? horizon), S e).

Definition predict (s : nat) : list Q := [1%Q; 0%Q].

Definition rng_random (g : nat) : Q * nat := (1%Q, g).

Definition rng_draw (g : nat) : nat * nat := (g, S g).

Definition batch_of (horizon : nat) (fuel : nat) (num_episodes : Z)
    (n_steps : bool) (steps_limit : option Z) (gamma tau : Q) :=
  create_batch env_reset (env_step horizon) predict rng_random rng_draw
    fuel 0%Z 0 0 num_episodes n_steps steps_limit gamma tau.

Definition play (horizon : nat) (fuel : nat) (steps_limit : option Z)
    (gamma tau : Q) :=
  play_loop (env_step horizon) predict rng_random rng_draw
    fuel steps_limit gamma tau 0 0 0 0%Z 0%Q [].

(** A model whose first [fit] call reports the losses [[3; 1]] and every
    later one the loss [[3]]. *)
Definition fit (states : list nat) (targets : list (list Q)) (model : nat)
  : (Q * list Q) * nat :=
  ((3%Q, if model =? 0 then [1%Q] else []), S model).

(** A model whose successive [fit] calls report the single losses 4, 3,
    2, ... *)
Definition fit_improving (states : list nat) (targets : list (list Q))
    (model : nat) : (Q * list Q) * nat :=
  ((inject_Z (4 - Z.of_nat model), []), S model).

End Stub.

(** ** Replaying a recorded episode against the environment *)
Section Replay.

Context {Obs Env : Type}.
Variable env_step : nat → Env → (Obs * Q * bool) * Env.
Variable predict_on_batch : Obs → list Q.

(** The episode is what the environment produces, from state [st] with
    internal state [env], under the recorded actions: every transition starts
    at the state the previous step returned, carries the model's prediction
    there and the reward of its step, and no step but the last reports
    done. *)
Fixpoint genuine_run (env : Env) (st : Obs) (ep : list (transition Obs))
  : Prop :=
  match ep with
  | [] => True
  | (s, q, a, r) :: rest =>
      s = st ∧ q = predict_on_batch st ∧
      r = (env_step a env).1.1.2 ∧
      (rest ≠ [] → (env_step a env).1.2 = false) ∧
      genuine_run (env_step a env).2 (env_step a env).1.1.1 rest
  end.

(** The state, the done flag and the environment after the recorded
    actions. *)
Fixpoint run_end (env : Env) (st : Obs) (done : bool)
    (ep : list (transition Obs)) : Obs * bool * Env :=
  match ep with
  | [] => (st, done, env)
  | (_, _, a, _) :: rest =>
      run_end (env_step a env).2 (env_step a env).1.1.1 (env_step a env).1.2
        rest
  end.

End Replay.

(** The states visited by the played episodes, episode by episode. *)
Definition visited_states {Obs Env Rng : Type}
    (eps : list (@play_end Obs Env Rng)) : list Obs :=
  concat ((λ r, state_of <$> pe_episode r) <$> eps).

(** The discounted sum of a sequence of rewards: the first one counts
    fully, the one after it times gamma, the next times gamma squared, and
    so on. *)
Definition discounted_sum (gamma : Q) (rewards : list Q) : Q :=
  foldr (λ r acc, r + gamma * acc)%Q 0%Q rewards.

(** ** Facts about the helpers *)

Ltac bind_inv H :=
  repeat match type of H with
    | context [mbind _ ?m] =>
        let E := fresh "E" in destruct m eqn:E; simpl in H; try discriminate H
    end.

Lemma np_setitem_Ok v i x t :
  np_setitem v i x = Ok t → i < length v ∧ t = <[i:=x]> v.
Proof. unfold np_setitem. case_decide; intros [=]; auto. Qed.

Lemma np_setitem_lt v i x : i < length v → np_setitem v i x = Ok (<[i:=x]> v).
Proof. intros. unfold np_setitem. case_decide; [done | lia]. Qed.

Lemma py_max_nonempty v : v ≠ [] → ∃ m, py_max v = Ok m.
Proof. destruct v; [done | eauto]. Qed.

Lemma argmax_scan_lt xs best_i best i :
  best_i < i → argmax_scan best_i best i xs < i + length xs.
Proof.
  revert best_i best i. induction xs as [|y ys IH]; intros bi b i Hlt; simpl.
  - lia.
  - destruct (Qltb b y).
    + specialize (IH i y (S i)). lia.
    + specialize (IH bi b (S i)). lia.
Qed.

Lemma np_argmax_lt v a : np_argmax v = Ok a → a < length v.
Proof.
  destruct v as [|x xs]; [done|]. intros [= <-].
  pose proof (argmax_scan_lt xs 0 x 1). simpl. lia.
Qed.

Lemma randint0_lt {Rng} (rng_draw : Rng → nat * Rng) n g a g' :
  randint0 rng_draw n g = Ok (a, g') → a < n.
Proof.
  destruct n as [|n]; [done|]. unfold randint0.
  destruct (rng_draw g) as [r g1]. intros [= <- _].
  change (r mod S n < S n). apply Nat.mod_upper_bound. lia.
Qed.

Lemma choose_action_lt {Rng} (rng_random : Rng → Q * Rng)
    (rng_draw : Rng → nat * Rng) tau q g a g' :
  choose_action rng_random rng_draw tau q g = Ok (a, g') → a < length q.
Proof.
  unfold choose_action. destruct (rng_random g) as [u g1].
  destruct (Qltb u tau).
  - apply randint0_lt.
  - intros H. bind_inv H. injection H as <- _. by apply np_argmax_lt.
Qed.

Section UnrollFacts.

Context {Obs : Type}.
Implicit Types (l ep : list (transition Obs)) (acc ss : list (sample Obs)).

Lemma lq_after_cons lq tr l :
  lq_after lq (tr :: l) = lq_after (Some (q_of tr)) l.
Proof. unfold lq_after. rewrite last_cons. by destruct (last l). Qed.

Lemma R_after_app gamma R l1 l2 :
  R_after gamma R (l1 ++ l2) = R_after gamma (R_after gamma R l1) l2.
Proof. apply fold_left_app. Qed.

Lemma R_after_undiscounted R ep :
  (R_after 1 R (reverse ep) == R + sum_rewards ep)%Q.
Proof.
  induction ep as [|tr ep IH]; simpl.
  - unfold R_after; simpl. ring.
  - rewrite reverse_cons, R_after_app. unfold R_after at 1; simpl.
    rewrite IH. ring.
Qed.

(** What a successful backward scan has appended, transition by
    transition. *)
Lemma unroll_Ok_inv n_steps gamma l R lq acc ss :
  unroll n_steps gamma l R lq acc = Ok ss →
  ∃ new, ss = acc ++ new ∧ length new = length l ∧
    ∀ k s q a r, l !! k = Some (s, q, a, r) →
      a < length q ∧
      ∃ Rk, target_scalar n_steps gamma (R_after gamma R (take (S k) l)) r
              (lq_after lq (take k l)) = Ok Rk ∧
            new !! k = Some (s, <[a:=Rk]> q).
Proof.
  revert R lq acc ss.
  induction l as [|[[[s0 q0] a0] r0] l IH]; intros R lq acc ss H; simpl in H.
  - injection H as <-. exists []. rewrite app_nil_r. repeat split; done.
  - bind_inv H. apply np_setitem_Ok in E0 as [Ha ->].
    apply IH in H as (new & -> & Hlen & Hk).
    exists ((s0, <[a0:=a]> q0) :: new). split; [by rewrite <-app_assoc|].
    split; [simpl; lia|].
    intros [|k] s q a' r Hl; simpl in Hl.
    + injection Hl as <- <- <- <-. split; [done|]. exists a. split; [|done].
      exact E.
    + destruct (Hk _ _ _ _ _ Hl) as (Hlt & Rk & HR & Hnew).
      split; [done|]. exists Rk. split; [|done].
      change (take (S (S k)) ((s0, q0, a0, r0) :: l))
        with ((s0, q0, a0, r0) :: take (S k) l).
      change (take (S k) ((s0, q0, a0, r0) :: l))
        with ((s0, q0, a0, r0) :: take k l).
      rewrite lq_after_cons. exact HR.
Qed.

(** The backward scan succeeds on every trajectory whose actions index
    their predictions. *)
Lemma unroll_total n_steps gamma l R lq acc :
  Forall wf_transition l →
  (∀ v, lq = Some v → v ≠ []) →
  ∃ ss, unroll n_steps gamma l R lq acc = Ok ss.
Proof.
  intros Hwf. revert R lq acc.
  induction Hwf as [|[[[s q] a] r] l Hx Hwf IH]; intros R lq acc Hlq; simpl.
  - eauto.
  - unfold wf_transition, action_of, q_of in Hx; simpl in Hx.
    assert (∃ Rk, target_scalar n_steps gamma (R * gamma + r) r lq = Ok Rk)
      as [Rk ->].
    { unfold target_scalar. destruct n_steps; [eauto|].
      destruct lq as [v|]; [|eauto].
      destruct (py_max_nonempty v) as [m ->]; [by apply Hlq|]. simpl. eauto. }
    simpl. rewrite np_setitem_lt by done. simpl.
    apply IH. intros v [= <-] ->. simpl in Hx. lia.
Qed.

End UnrollFacts.

Section EpisodeFacts.

Context {Obs : Type}.
Implicit Types (l ep : list (transition Obs)) (acc ss : list (sample Obs)).

Lemma lq_after_reverse_drop lq ep i :
  lq_after lq (reverse (drop (S i) ep)) = next_q ep lq i.
Proof.
  unfold lq_after, next_q. rewrite last_reverse, head_lookup, lookup_drop.
  by rewrite Nat.add_0_r.
Qed.

(** The samples of one episode, read in forward time. *)
Lemma episode_targets_Ok_inv n_steps gamma ep lq acc ss :
  episode_targets n_steps gamma ep lq acc = Ok ss →
  ∃ seed new, R_sum_init lq = Ok seed ∧ ss = acc ++ new ∧
    length new = length ep ∧
    ∀ i s q a r, ep !! i = Some (s, q, a, r) →
      a < length q ∧
      ∃ Ri, target_scalar n_steps gamma
              (R_after gamma seed (reverse (drop i ep))) r (next_q ep lq i)
            = Ok Ri ∧
            reverse new !! i = Some (s, <[a:=Ri]> q).
Proof.
  unfold episode_targets. intros H. bind_inv H. rename a into seed.
  apply unroll_Ok_inv in H as (new & -> & Hlen & Hk).
  rewrite length_reverse in Hlen.
  exists seed, new. split; [reflexivity|]. split; [reflexivity|].
  split; [exact Hlen|].
  intros i s q a r Hi.
  assert (i < length ep) as Hlt by (by eapply lookup_lt_Some).
  destruct (Hk (length ep - S i) s q a r) as (Ha & Ri & HR & Hnew).
  { rewrite reverse_lookup by lia. rewrite <-Hi. f_equal. lia. }
  split; [done|]. exists Ri. split.
  - rewrite !take_reverse in HR.
    replace (length ep - S (length ep - S i)) with i in HR by lia.
    replace (length ep - (length ep - S i)) with (S i) in HR by lia.
    by rewrite lq_after_reverse_drop in HR.
  - rewrite reverse_lookup by lia. rewrite <-Hnew. f_equal. lia.
Qed.

(** Every sample of a successful scan was already there or is the
    prediction of one transition with the entry of its action replaced by
    the target scalar of that transition. *)
Lemma episode_targets_elem n_steps gamma ep lq acc ss smp :
  episode_targets n_steps gamma ep lq acc = Ok ss → smp ∈ ss →
  smp ∈ acc ∨
  ∃ seed i s q a r R,
    R_sum_init lq = Ok seed ∧ ep !! i = Some (s, q, a, r) ∧ a < length q ∧
    target_scalar n_steps gamma (R_after gamma seed (reverse (drop i ep))) r
      (next_q ep lq i) = Ok R ∧
    smp = (s, <[a:=R]> q).
Proof.
  intros Ht Hin.
  apply episode_targets_Ok_inv in Ht as (seed & new & Hseed & -> & Hlen & Hk).
  apply elem_of_app in Hin as [Hin|Hin]; [by left|]. right.
  apply list_elem_of_lookup in Hin as [k Hk'].
  assert (k < length new) as Hlt by (by eapply lookup_lt_Some).
  destruct (lookup_lt_is_Some_2 ep (length new - S k)) as [[[[s q] a] r] Hi];
    [lia|].
  destruct (Hk _ s q a r Hi) as (Ha & Ri & HR & Hnew).
  rewrite reverse_lookup in Hnew by lia.
  replace (length new - S (length new - S k)) with k in Hnew by lia.
  rewrite Hk' in Hnew. injection Hnew as ->.
  by exists seed, (length new - S k), s, q, a, r, Ri.
Qed.

End EpisodeFacts.

(** ** Facts about the play loop *)

Section PlayFacts.

Context {Obs Env Rng : Type}.
Variable env_step : nat → Env → (Obs * Q * bool) * Env.
Variable predict_on_batch : Obs → list Q.
Variable rng_random : Rng → Q * Rng.
Variable rng_draw : Rng → nat * Rng.

Local Abbreviation play := (play_loop env_step predict_on_batch rng_random rng_draw).

Lemma choose_action_fuel tau q g :
  choose_action rng_random rng_draw tau q g ≠ OutOfFuel.
Proof.
  unfold choose_action, randint0. destruct (rng_random g) as [u g1].
  destruct (Qltb u tau).
  - destruct (length q); [done|]. by destruct (rng_draw g1).
  - by destruct q.
Qed.

Lemma choose_action_total tau q g :
  q ≠ [] → ∃ a g', choose_action rng_random rng_draw tau q g = Ok (a, g').
Proof.
  intros Hq. unfold choose_action, randint0. destruct (rng_random g) as [u g1].
  destruct (Qltb u tau).
  - destruct q as [|x q]; [done|]. simpl. destruct (rng_draw g1); eauto.
  - destruct q as [|x q]; [done|]. simpl. eauto.
Qed.

(** How the play loop can leave: what it has recorded, and the value of
    [last_q] on each of its two exits. *)
Lemma play_loop_Ok_inv fuel lim gamma tau env g st step sr ep r :
  play fuel lim gamma tau env g st step sr ep = Ok r →
  ∃ new, pe_episode r = ep ++ new ∧ new ≠ [] ∧ Forall wf_transition new ∧
    length new ≤ fuel ∧
    pe_step r = (step + Z.of_nat (length new))%Z ∧
    if pe_done r then pe_last_q r = None
    else lim = Some (pe_step r) ∧
         pe_last_q r = Some (predict_on_batch (pe_state r)).
Proof.
  revert env g st step sr ep.
  induction fuel as [|fuel IH]; intros env g st step sr ep H; simpl in H;
    [done|].
  bind_inv H. destruct a as [action g1].
  apply choose_action_lt in E as Hact.
  destruct (env_step action env) as [[[ns rew] d] env1].
  set (tr := (st, predict_on_batch st, action, rew)) in *.
  assert (wf_transition tr) as Hwf by exact Hact.
  destruct d.
  - injection H as <-. exists [tr]; simpl.
    repeat split; try done; try lia. by constructor.
  - case_bool_decide as Hlim.
    + injection H as <-. exists [tr]; simpl.
      repeat split; try done; try lia. by constructor.
    + apply IH in H as (new & Hep & _ & Hall & Hlen & Hstep & Hexit).
      exists (tr :: new). rewrite Hep, <-app_assoc. simpl.
      repeat split; try done; try lia. by constructor.
Qed.

(** Every transition the loop records carries the model's prediction at
    its state. *)
Lemma play_loop_records_prediction fuel lim gamma tau env g st step sr ep r :
  play fuel lim gamma tau env g st step sr ep = Ok r →
  Forall (λ tr, q_of tr = predict_on_batch (state_of tr)) ep →
  Forall (λ tr, q_of tr = predict_on_batch (state_of tr)) (pe_episode r).
Proof.
  revert env g st step sr ep.
  induction fuel as [|fuel IH]; intros env g st step sr ep H Hep; simpl in H;
    [done|].
  bind_inv H. destruct a as [action g1].
  destruct (env_step action env) as [[[ns rew] d] env1].
  assert (Forall (λ tr, q_of tr = predict_on_batch (state_of tr))
            (ep ++ [(st, predict_on_batch st, action, rew)])) as Hep'.
  { apply Forall_app. split; [done|]. by constructor. }
  destruct d; [by injection H as <-|].
  case_bool_decide; [by injection H as <-|]. by eapply IH.
Qed.

Lemma play_loop_capped fuel n gamma tau env g st step sr ep :
  (step < n)%Z → Z.to_nat (n - step) ≤ fuel →
  play fuel (Some n) gamma tau env g st step sr ep ≠ OutOfFuel.
Proof.
  revert env g st step sr ep.
  induction fuel as [|fuel IH]; intros env g st step sr ep Hlt Hfuel; [lia|].
  simpl. pose proof (choose_action_fuel tau (predict_on_batch st) g) as Hc.
  destruct (choose_action _ _ _ _ _) as [[action g1]| |]; simpl; [|done..].
  destruct (env_step action env) as [[[ns rew] d] env1].
  destruct d; [done|]. case_bool_decide as Hlim; [done|].
  apply IH; [|lia]. assert (n ≠ step + 1)%Z by congruence. lia.
Qed.

Lemma play_loop_step_le fuel n gamma tau env g st step sr ep r :
  (step < n)%Z →
  play fuel (Some n) gamma tau env g st step sr ep = Ok r →
  (pe_step r ≤ n)%Z.
Proof.
  revert env g st step sr ep.
  induction fuel as [|fuel IH]; intros env g st step sr ep Hlt H; simpl in H;
    [done|].
  bind_inv H. destruct a as [action g1].
  destruct (env_step action env) as [[[ns rew] d] env1].
  destruct d; [injection H as <-; simpl; lia|].
  case_bool_decide as Hlim; [injection H as <-; simpl; lia|].
  eapply IH; [|exact H]. assert (n ≠ step + 1)%Z by congruence. lia.
Qed.

End PlayFacts.

Lemma play_loop_no_raise {Obs Env Rng : Type}
    (env_step : nat → Env → (Obs * Q * bool) * Env)
    (predict_on_batch : Obs → list Q)
    (rng_random : Rng → Q * Rng) (rng_draw : Rng → nat * Rng)
    fuel lim gamma tau env g st step sr ep e :
  (∀ s, predict_on_batch s ≠ []) →
  play_loop env_step predict_on_batch rng_random rng_draw
    fuel lim gamma tau env g st step sr ep ≠ Raise e.
Proof.
  intros Hq. revert env g st step sr ep.
  induction fuel as [|fuel IH]; intros env g st step sr ep; simpl; [done|].
  destruct (choose_action_total rng_random rng_draw tau (predict_on_batch st) g)
    as (a & g1 & ->); [done|]. simpl.
  destruct (env_step a env) as [[[ns rew] d] env1].
  destruct d; [done|]. case_bool_decide; [done|]. apply IH.
Qed.

(** ** Facts about the shuffle *)

Lemma swap_items_perm {A : Type} (x : list A) i j : swap_items x i j ≡ₚ x.
Proof.
  unfold swap_items.
  destruct (x !! i) as [xi|] eqn:Hi; [|done].
  destruct (x !! j) as [xj|] eqn:Hj; [|done].
  by apply Permutation_insert_swap.
Qed.

Lemma shuffle_down_perm {Rng A : Type} (rng_draw : Rng → nat * Rng)
    i (x : list A) g :
  (shuffle_down rng_draw i x g).1 ≡ₚ x.
Proof.
  revert x g. induction i as [|i IH]; intros x g; simpl; [done|].
  destruct (rng_draw g) as [r g1]. rewrite IH. apply swap_items_perm.
Qed.

Lemma np_shuffle_perm {Rng A : Type} (rng_draw : Rng → nat * Rng)
    (x : list A) g :
  (np_shuffle rng_draw x g).1 ≡ₚ x.
Proof. apply shuffle_down_perm. Qed.

(** ** Facts about the loop over the episodes *)

Section BatchFacts.

Context {Obs Env Rng : Type}.
Variable env_reset : Env → Obs * Env.
Variable env_step : nat → Env → (Obs * Q * bool) * Env.
Variable predict_on_batch : Obs → list Q.
Variable rng_random : Rng → Q * Rng.
Variable rng_draw : Rng → nat * Rng.

Local Abbreviation play :=
  (play_loop env_step predict_on_batch rng_random rng_draw).
Local Abbreviation episodes :=
  (episodes_loop env_reset env_step predict_on_batch rng_random rng_draw).
Local Abbreviation played :=
  (played_episodes env_reset env_step predict_on_batch rng_random rng_draw).
Local Abbreviation build :=
  (create_batch env_reset env_step predict_on_batch rng_random rng_draw).

Lemma episodes_loop_Ok_inv fuel count n_steps lim gamma tau env g acc rw
    ss rs env' g' :
  episodes fuel count n_steps lim gamma tau env g acc rw = Ok (ss, rs, env', g') →
  ∃ eps, played fuel count lim gamma tau env g = Ok eps ∧
    length eps = count ∧
    length ss = length acc + sum_list (episode_lengths eps) ∧
    rs = rw ++ (pe_sum_reward <$> eps).
Proof.
  revert env g acc rw.
  induction count as [|count IH]; intros env g acc rw H; simpl in H.
  - injection H as <- <- <- <-. exists []. simpl.
    rewrite app_nil_r. repeat split; lia.
  - simpl. destruct (env_reset env) as [st env1].
    bind_inv H. rename a into r, a0 into ss1.
    apply episode_targets_Ok_inv in E0 as (seed & new & _ & -> & Hlen & _).
    apply IH in H as (eps & Heps & Hcount & Hss & ->).
    simpl. rewrite Heps. simpl.
    exists (r :: eps). simpl. rewrite Hss, length_app, Hlen, <-app_assoc.
    repeat split; try done; lia.
Qed.

(** Where the samples of a batch come from: each one is the prediction of
    the model at the state of a transition of a played episode, with the
    entry of the chosen action replaced by the target scalar the scan of
    that episode computes for the transition. *)
Lemma episodes_loop_elem fuel count n_steps lim gamma tau env g acc rw
    ss rs env' g' eps smp :
  episodes fuel count n_steps lim gamma tau env g acc rw = Ok (ss, rs, env', g') →
  played fuel count lim gamma tau env g = Ok eps →
  smp ∈ ss →
  smp ∈ acc ∨
  ∃ r seed i s a reward R,
    r ∈ eps ∧ R_sum_init (pe_last_q r) = Ok seed ∧
    pe_episode r !! i = Some (s, predict_on_batch s, a, reward) ∧
    a < length (predict_on_batch s) ∧
    target_scalar n_steps gamma
      (R_after gamma seed (reverse (drop i (pe_episode r)))) reward
      (next_q (pe_episode r) (pe_last_q r) i) = Ok R ∧
    smp = (s, <[a:=R]> (predict_on_batch s)).
Proof.
  revert env g acc rw eps.
  induction count as [|count IH]; intros env g acc rw eps H Hp Hin;
    simpl in H, Hp.
  - injection H as <- <- <- <-. by left.
  - destruct (env_reset env) as [st env1].
    bind_inv H. rename a into r, a0 into ss1. simpl in Hp. bind_inv Hp.
    injection Hp as <-.
    destruct (IH _ _ _ _ _ H E1 Hin)
      as [Hin1|(r' & seed & i & s & a' & rew & R & Hr' & Hrest)].
    + destruct (episode_targets_elem _ _ _ _ _ _ _ E0 Hin1)
        as [?|(seed & i & s & q & a' & rew & R & Hseed & Hi & Ha & HR & ->)];
        [by left|].
      right. exists r, seed, i, s, a', rew, R.
      assert (q = predict_on_batch s) as ->.
      { apply play_loop_records_prediction in E; [|constructor].
        rewrite Forall_lookup in E. apply (E _ _ Hi). }
      split; [by left|]. done.
    + right. exists r', seed, i, s, a', rew, R. split; [by right|]. done.
Qed.

Lemma create_batch_Ok_inv fuel iter_no env g num n_steps lim gamma tau b :
  build fuel iter_no env g num n_steps lim gamma tau = Ok b →
  ∃ samples rewards env' g' mx,
    episodes fuel (Z.to_nat num) n_steps lim gamma tau env g [] []
      = Ok (samples, rewards, env', g') ∧
    np_max rewards = Ok mx ∧
    b = Batch (np_shuffle rng_draw samples g').1.*1
              (np_shuffle rng_draw samples g').1.*2
              (LogRecord iter_no (length samples) (np_mean rewards) mx)
              env' (np_shuffle rng_draw samples g').2.
Proof.
  unfold create_batch. intros H. bind_inv H.
  destruct a as [[[samples rewards] env'] g']. simpl in H. bind_inv H.
  destruct (np_shuffle rng_draw samples g') as [shuffled g''] eqn:Hsh.
  injection H as <-. exists samples, rewards, env', g', a. by rewrite Hsh.
Qed.

(** With a positive step cap, enough fuel and a model that always predicts
    at least one action value, every episode is played to its end and its
    targets are computed. *)
Lemma play_loop_total fuel n gamma tau env g st sr :
  (∀ s, predict_on_batch s ≠ []) → (0 < n)%Z → Z.to_nat n ≤ fuel →
  ∃ r, play fuel (Some n) gamma tau env g st 0%Z sr [] = Ok r.
Proof.
  intros Hq Hn Hfuel.
  pose proof (play_loop_capped env_step predict_on_batch rng_random rng_draw
                fuel n gamma tau env g st 0%Z sr []) as Hcap.
  pose proof (play_loop_no_raise env_step predict_on_batch rng_random rng_draw
                fuel (Some n) gamma tau env g st 0%Z sr []) as Hraise.
  destruct (play _ _ _ _ _ _ _ _ _ _) as [r|e|]; [eauto| |].
  - by destruct (Hraise e).
  - destruct Hcap; [lia | lia | done].
Qed.

Lemma episode_targets_total fuel lim gamma tau env g st sr n_steps r acc :
  (∀ s, predict_on_batch s ≠ []) →
  play fuel lim gamma tau env g st 0%Z sr [] = Ok r →
  ∃ ss, episode_targets n_steps gamma (pe_episode r) (pe_last_q r) acc = Ok ss.
Proof.
  intros Hq Hplay.
  apply play_loop_Ok_inv in Hplay as (new & Hep & _ & Hwf & _ & _ & Hexit).
  simpl in Hep. unfold episode_targets.
  assert (∀ v, pe_last_q r = Some v → v ≠ []) as Hlq.
  { intros v Hv. destruct (pe_done r); [congruence|].
    destruct Hexit as [_ Hexit]. rewrite Hexit in Hv. injection Hv as <-.
    apply Hq. }
  assert (∃ seed, R_sum_init (pe_last_q r) = Ok seed) as [seed ->].
  { unfold R_sum_init. destruct (pe_last_q r) as [v|]; [|eauto].
    apply py_max_nonempty. by apply Hlq. }
  simpl. apply unroll_total; [|done].
  rewrite Hep. by apply Forall_reverse.
Qed.

Lemma episodes_loop_total fuel count n_steps n gamma tau env g acc rw :
  (∀ s, predict_on_batch s ≠ []) → (0 < n)%Z → Z.to_nat n ≤ fuel →
  ∃ ss rs env' g',
    episodes fuel count n_steps (Some n) gamma tau env g acc rw
      = Ok (ss, rs, env', g') ∧ length rs = length rw + count.
Proof.
  intros Hq Hn Hfuel. revert env g acc rw.
  induction count as [|count IH]; intros env g acc rw; simpl.
  - exists acc, rw, env, g. split; [done | lia].
  - destruct (env_reset env) as [st env1].
    destruct (play_loop_total fuel n gamma tau env1 g st 0%Q) as [r Hr];
      [done..|].
    rewrite Hr. simpl.
    destruct (episode_targets_total _ _ _ _ _ _ _ _ n_steps r acc Hq Hr)
      as [ss1 ->]. simpl.
    destruct (IH (pe_env r) (pe_rng r) ss1 (rw ++ [pe_sum_reward r]))
      as (ss & rs & env' & g' & -> & Hlen).
    exists ss, rs, env', g'. split; [done|].
    rewrite Hlen, length_app. simpl. lia.
Qed.

Lemma create_batch_total fuel iter_no env g num n_steps n gamma tau :
  (∀ s, predict_on_batch s ≠ []) → (0 < n)%Z → Z.to_nat n ≤ fuel →
  (0 < num)%Z →
  ∃ b, build fuel iter_no env g num n_steps (Some n) gamma tau = Ok b.
Proof.
  intros Hq Hn Hfuel Hnum. unfold create_batch.
  destruct (episodes_loop_total fuel (Z.to_nat num) n_steps n gamma tau env g
              [] [] Hq Hn Hfuel) as (ss & rs & env' & g' & -> & Hlen).
  simpl. destruct rs as [|x rs]; [simpl in Hlen; lia|]. simpl.
  destruct (np_shuffle rng_draw ss g'); eauto.
Qed.

End BatchFacts.

(** ** The play loop: termination and the seed of the running return *)

Section PlayClaims.

Context {Obs Env Rng : Type}.
Variable env_step : nat → Env → (Obs * Q * bool) * Env.
Variable predict_on_batch : Obs → list Q.
Variable rng_random : Rng → Q * Rng.
Variable rng_draw : Rng → nat * Rng.

(** The final [state] and [done] are what the last [env.step] returned. *)
Lemma play_loop_last_step fuel lim gamma tau env g st step sr ep r :
  play_loop env_step predict_on_batch rng_random rng_draw
    fuel lim gamma tau env g st step sr ep = Ok r →
  ∃ action env0 reward,
    env_step action env0 = (pe_state r, reward, pe_done r, pe_env r).
Proof.
  revert env g st step sr ep.
  induction fuel as [|fuel IH]; intros env g st step sr ep H; simpl in H;
    [done|].
  bind_inv H. destruct a as [action g1].
  destruct (env_step action env) as [[[ns rew] d] env1] eqn:Hstep.
  destruct d; [injection H as <-; simpl; eauto|].
  case_bool_decide; [injection H as <-; simpl; eauto|].
  by eapply IH.
Qed.

(** C3: the play loop ends with the state and the done flag of its last
    [env.step].  The running return of the backward scan starts at 0 when
    the episode ended naturally (done reported), and at the maximum entry of
    the model's prediction at that final state when the episode was cut off
    by the step cap (no done reported, the step counter equals the cap): the
    targets of the episode are those of the scan started with that value. *)
Theorem C3_running_return_seed fuel lim gamma tau env g st step sr ep r
    n_steps acc :
  play_loop env_step predict_on_batch rng_random rng_draw
    fuel lim gamma tau env g st step sr ep = Ok r →
  (∃ action env0 reward,
     env_step action env0 = (pe_state r, reward, pe_done r, pe_env r))
  ∧
  (pe_done r = true →
     R_sum_init (pe_last_q r) = Ok 0%Q ∧
     episode_targets n_steps gamma (pe_episode r) (pe_last_q r) acc
     = unroll n_steps gamma (reverse (pe_episode r)) 0%Q None acc)
  ∧
  (pe_done r = false →
     lim = Some (pe_step r) ∧
     R_sum_init (pe_last_q r) = py_max (predict_on_batch (pe_state r)) ∧
     episode_targets n_steps gamma (pe_episode r) (pe_last_q r) acc
     = (m ← py_max (predict_on_batch (pe_state r));
        unroll n_steps gamma (reverse (pe_episode r)) m
          (Some (predict_on_batch (pe_state r))) acc)).
Proof.
  intros H. split; [by eapply play_loop_last_step|].
  apply play_loop_Ok_inv in H as (new & _ & _ & _ & _ & _ & Hexit).
  unfold episode_targets. split; intros Hd; rewrite Hd in Hexit.
  - by rewrite Hexit.
  - destruct Hexit as [Hlim ->]. done.
Qed.

(** C10: with a positive step cap [n], the play loop of an episode ends
    within [n] passes, that is [n] calls of [env.step], whatever the
    environment reports: fuel [n] is never exhausted, and a finished episode
    has recorded at most [n] transitions, one per step counted.  Without a
    cap, the loop is left only after an [env.step] that reported done. *)
Theorem C10_play_loop_termination (n : Z) fuel fuel' gamma tau env g st sr :
  (0 < n)%Z → Z.to_nat n ≤ fuel →
  (play_loop env_step predict_on_batch rng_random rng_draw
    fuel (Some n) gamma tau env g st 0%Z sr [] ≠ OutOfFuel ∧
   ∀ r, play_loop env_step predict_on_batch rng_random rng_draw
    fuel (Some n) gamma tau env g st 0%Z sr [] = Ok r →
     length (pe_episode r) ≤ Z.to_nat n ∧
     pe_step r = Z.of_nat (length (pe_episode r)))
  ∧
  (∀ r, play_loop env_step predict_on_batch rng_random rng_draw
    fuel' None gamma tau env g st 0%Z sr [] = Ok r →
     pe_done r = true ∧
     ∃ action env0 reward,
       env_step action env0 = (pe_state r, reward, true, pe_env r)).
Proof.
  intros Hn Hfuel. split; [split|].
  - apply play_loop_capped; lia.
  - intros r H.
    pose proof (play_loop_step_le env_step predict_on_batch rng_random
                  rng_draw fuel n gamma tau env g st 0%Z sr [] r Hn H).
    apply play_loop_Ok_inv in H as (new & Hep & _ & _ & _ & Hstep & _).
    simpl in Hep. rewrite Hep. split; lia.
  - intros r H. pose proof (play_loop_last_step _ _ _ _ _ _ _ _ _ _ _ H) as Hlast.
    apply play_loop_Ok_inv in H as (new & _ & _ & _ & _ & _ & Hexit).
    destruct (pe_done r); [done|]. by destruct Hexit.
Qed.

End PlayClaims.

(** ** The targets of one episode *)

Lemma differing_insert (q : list Q) (a : nat) (R : Q) (j : nat) :
  j ∈ differing q (<[a:=R]> q) → j = a.
Proof.
  unfold differing. intros [Hne _]%list_elem_of_filter.
  destruct (decide (j = a)) as [|Hja]; [done|].
  by rewrite list_lookup_insert_ne in Hne.
Qed.

Lemma target_at_insert {Obs : Type} (s : Obs) (q : list Q) (a : nat) (R : Q) :
  a < length q → target_at (s, <[a:=R]> q) a = Some R.
Proof. intros. unfold target_at. simpl. by apply list_lookup_insert_eq. Qed.

Lemma next_q_last {Obs : Type} (ep : list (transition Obs)) lq i :
  S i = length ep → next_q ep lq i = lq.
Proof.
  intros Hi. unfold next_q. rewrite lookup_ge_None_2; [done | lia].
Qed.

Section TargetClaims.

Context {Obs Env Rng : Type}.
Variable env_step : nat → Env → (Obs * Q * bool) * Env.
Variable predict_on_batch : Obs → list Q.
Variable rng_random : Rng → Q * Rng.
Variable rng_draw : Rng → nat * Rng.

(** C1, amended: in n-step mode with discount factor 1, the target scalar
    of the first transition of an episode (the last sample the backward scan
    appends) equals the sum of all rewards of the episode when the episode
    ended naturally; when the episode was cut off by the step cap it equals
    that sum plus the maximum entry of the model's prediction at the cutoff
    state. *)
Theorem C1_first_target_undiscounted fuel lim gamma' tau env g st step sr ep
    r acc ss :
  play_loop env_step predict_on_batch rng_random rng_draw
    fuel lim gamma' tau env g st step sr ep = Ok r →
  episode_targets true 1 (pe_episode r) (pe_last_q r) acc = Ok ss →
  ∃ new s q a reward smp R,
    ss = acc ++ new ∧
    head (pe_episode r) = Some (s, q, a, reward) ∧
    sample_of new 0 = Some smp ∧ last ss = Some smp ∧ smp.1 = s ∧
    target_at smp a = Some R ∧
    (pe_done r = true → (R == sum_rewards (pe_episode r))%Q) ∧
    (pe_done r = false →
       ∃ m, py_max (predict_on_batch (pe_state r)) = Ok m ∧
            (R == sum_rewards (pe_episode r) + m)%Q).
Proof.
  intros Hplay Ht.
  apply play_loop_Ok_inv in Hplay as (played & Hep & Hne & _ & _ & _ & Hexit).
  apply episode_targets_Ok_inv in Ht as (seed & new & Hseed & -> & Hlen & Hk).
  destruct (pe_episode r) as [|[[[s q] a] reward] rest] eqn:Hr.
  { by destruct ep, played. }
  destruct (Hk 0 s q a reward eq_refl) as (Ha & R & HR & Hnew).
  simpl in HR. injection HR as <-.
  exists new, s, q, a, reward, (s, <[a:=R_after 1 seed (reverse ((s, q, a, reward) :: rest))]> q),
    (R_after 1 seed (reverse ((s, q, a, reward) :: rest))).
  repeat split; try done.
  - unfold sample_of in Hnew. rewrite <-head_lookup, head_reverse in Hnew.
    rewrite last_app, Hnew. done.
  - by apply target_at_insert.
  - intros Hd. rewrite Hd in Hexit. rewrite Hexit in Hseed.
    injection Hseed as <-. rewrite R_after_undiscounted. ring.
  - intros Hd. rewrite Hd in Hexit. destruct Hexit as [_ Hlq].
    rewrite Hlq in Hseed. simpl in Hseed. exists seed. split; [done|].
    rewrite R_after_undiscounted. ring.
Qed.

(** C2: in 1-step mode, for any discount factor, the target scalar of a
    transition that has a successor in its episode is its reward plus gamma
    times the maximum entry of the successor's predicted vector, and the
    target scalar of the final transition of an episode that ended naturally
    is exactly its reward. *)
Theorem C2_one_step_targets fuel lim gamma tau env g st step sr ep r acc ss :
  play_loop env_step predict_on_batch rng_random rng_draw
    fuel lim gamma tau env g st step sr ep = Ok r →
  episode_targets false gamma (pe_episode r) (pe_last_q r) acc = Ok ss →
  ∃ new, ss = acc ++ new ∧ length new = length (pe_episode r) ∧
    ∀ i s q a reward, pe_episode r !! i = Some (s, q, a, reward) →
      (∀ s' q' a' reward', pe_episode r !! S i = Some (s', q', a', reward') →
         ∃ m smp, py_max q' = Ok m ∧ sample_of new i = Some smp ∧ smp.1 = s ∧
                  target_at smp a = Some (reward + gamma * m)%Q)
      ∧
      (S i = length (pe_episode r) → pe_done r = true →
         ∃ smp, sample_of new i = Some smp ∧ smp.1 = s ∧
                target_at smp a = Some reward).
Proof.
  intros Hplay Ht.
  apply play_loop_Ok_inv in Hplay as (played & _ & _ & _ & _ & _ & Hexit).
  apply episode_targets_Ok_inv in Ht as (seed & new & _ & -> & Hlen & Hk).
  exists new. split; [done|]. split; [done|].
  intros i s q a reward Hi.
  destruct (Hk i s q a reward Hi) as (Ha & Ri & HR & Hnew). split.
  - intros s' q' a' reward' Hnext.
    unfold next_q in HR. rewrite Hnext in HR. simpl in HR.
    change (q_of (s', q', a', reward')) with q' in HR.
    destruct (py_max q') as [m| |]; simpl in HR; [|done..].
    injection HR as <-. exists m, (s, <[a:=(reward + gamma * m)%Q]> q).
    repeat split; [done..|]. by apply target_at_insert.
  - intros Hlast Hd. rewrite Hd in Hexit.
    rewrite next_q_last, Hexit in HR by done. simpl in HR.
    injection HR as <-. exists (s, <[a:=reward]> q).
    repeat split; [done..|]. by apply target_at_insert.
Qed.

(** C9: in 1-step mode, when the step cap ends an episode (no done
    reported), the target scalar of the last recorded transition is its
    reward plus gamma times the maximum entry of the model's prediction at
    the cutoff state. *)
Theorem C9_one_step_cap_bootstrap fuel lim gamma tau env g st step sr ep r
    acc ss :
  play_loop env_step predict_on_batch rng_random rng_draw
    fuel lim gamma tau env g st step sr ep = Ok r →
  pe_done r = false →
  episode_targets false gamma (pe_episode r) (pe_last_q r) acc = Ok ss →
  ∃ new s q a reward m smp,
    ss = acc ++ new ∧
    last (pe_episode r) = Some (s, q, a, reward) ∧
    py_max (predict_on_batch (pe_state r)) = Ok m ∧
    head new = Some smp ∧ smp.1 = s ∧
    sample_of new (length (pe_episode r) - 1) = Some smp ∧
    target_at smp a = Some (reward + gamma * m)%Q.
Proof.
  intros Hplay Hd Ht.
  apply play_loop_Ok_inv in Hplay as (played & Hep & Hne & _ & _ & _ & Hexit).
  rewrite Hd in Hexit. destruct Hexit as [_ Hlq].
  apply episode_targets_Ok_inv in Ht as (seed & new & _ & -> & Hlen & Hk).
  destruct (last (pe_episode r)) as [[[[s q] a] reward]|] eqn:Hlast.
  2: { apply last_None in Hlast. rewrite Hlast in Hep. by destruct ep, played. }
  pose proof Hlast as Hi. rewrite last_lookup in Hi.
  assert (0 < length (pe_episode r)) as Hpos.
  { destruct (pe_episode r); [done | simpl; lia]. }
  replace (pred (length (pe_episode r))) with (length (pe_episode r) - 1)
    in Hi by lia.
  destruct (Hk _ s q a reward Hi) as (Ha & Ri & HR & Hnew).
  rewrite next_q_last, Hlq in HR by lia. simpl in HR.
  destruct (py_max (predict_on_batch (pe_state r))) as [m| |];
    simpl in HR; [|done..].
  injection HR as <-.
  exists new, s, q, a, reward, m, (s, <[a:=(reward + gamma * m)%Q]> q).
  repeat split; try done.
  - rewrite reverse_lookup in Hnew by lia.
    rewrite head_lookup, <-Hnew. f_equal. lia.
  - by apply target_at_insert.
Qed.

End TargetClaims.

(** The samples of one episode, transition by transition: the target
    vector has the length of the recorded prediction and agrees with it
    away from the chosen action's index. *)
Lemma episode_targets_shape {Obs : Type} n_steps gamma
    (ep : list (transition Obs)) lq acc ss :
  episode_targets n_steps gamma ep lq acc = Ok ss →
  ∃ new, ss = acc ++ new ∧ length new = length ep ∧
    ∀ i s q a reward, ep !! i = Some (s, q, a, reward) →
      ∃ t R, sample_of new i = Some (s, t) ∧
        length t = length q ∧ a < length q ∧ t !! a = Some R ∧
        (∀ j, j ≠ a → t !! j = q !! j) ∧
        (∀ j, j ∈ differing q t → j = a).
Proof.
  intros Ht.
  apply episode_targets_Ok_inv in Ht as (seed & new & _ & -> & Hlen & Hk).
  exists new. split; [done|]. split; [done|].
  intros i s q a reward Hi.
  destruct (Hk i s q a reward Hi) as (Ha & Ri & _ & Hnew).
  exists (<[a:=Ri]> q), Ri. repeat split; try done.
  - apply length_insert.
  - by apply list_lookup_insert_eq.
  - intros j Hj. by apply list_lookup_insert_ne.
  - apply differing_insert.
Qed.

(** ** The batch as a whole *)

Section BatchClaims.

Context {Obs Env Rng : Type}.
Variable env_reset : Env → Obs * Env.
Variable env_step : nat → Env → (Obs * Q * bool) * Env.
Variable predict_on_batch : Obs → list Q.
Variable rng_random : Rng → Q * Rng.
Variable rng_draw : Rng → nat * Rng.

(** C6: the batch a call returns holds as many states, and as many target
    vectors, as there are transitions in the episodes the call played: the
    sum of the episode lengths, which is also the sample count it logs. *)
Theorem C6_sample_count fuel iter_no env g num n_steps lim gamma tau b :
  create_batch env_reset env_step predict_on_batch rng_random rng_draw
    fuel iter_no env g num n_steps lim gamma tau = Ok b →
  ∃ eps, played_episodes env_reset env_step predict_on_batch rng_random
      rng_draw fuel (Z.to_nat num) lim gamma tau env g = Ok eps ∧
    length eps = Z.to_nat num ∧
    length (b_states b) = sum_list (episode_lengths eps) ∧
    length (b_targets b) = sum_list (episode_lengths eps) ∧
    log_samples (b_log b) = sum_list (episode_lengths eps).
Proof.
  intros H.
  apply create_batch_Ok_inv in H
    as (samples & rewards & env' & g' & mx & Hloop & _ & ->).
  apply episodes_loop_Ok_inv in Hloop as (eps & Heps & Hcount & Hlen & _).
  simpl in Hlen. exists eps. simpl. rewrite !length_fmap.
  rewrite (Permutation_length (np_shuffle_perm rng_draw samples g')).
  by rewrite Hlen.
Qed.

(** C7: the shuffle permutes the samples.  The pairs of the returned batch,
    each state with the target vector at the same position, are a
    permutation of the samples collected from the episodes: the same
    multiset of pairs, every state still next to its own target vector. *)
Theorem C7_shuffle_permutation fuel iter_no env g num n_steps lim gamma tau b :
  create_batch env_reset env_step predict_on_batch rng_random rng_draw
    fuel iter_no env g num n_steps lim gamma tau = Ok b →
  ∃ samples rewards env' g',
    episodes_loop env_reset env_step predict_on_batch rng_random rng_draw
      fuel (Z.to_nat num) n_steps lim gamma tau env g [] []
      = Ok (samples, rewards, env', g') ∧
    (np_shuffle rng_draw samples g').1 ≡ₚ samples ∧
    zip (b_states b) (b_targets b) = (np_shuffle rng_draw samples g').1 ∧
    zip (b_states b) (b_targets b) ≡ₚ samples ∧
    length (b_states b) = length (b_targets b).
Proof.
  intros H.
  apply create_batch_Ok_inv in H
    as (samples & rewards & env' & g' & mx & Hloop & _ & ->).
  exists samples, rewards, env', g'. simpl. rewrite zip_fst_snd.
  repeat split; [done | apply np_shuffle_perm.. | by rewrite !length_fmap].
Qed.

(** C4, amended: every training sample of a returned batch comes from a
    transition of a played episode; its target vector has the same length
    as the model's predicted vector for that transition's state, and the two
    vectors agree at every index other than the chosen action's, which
    holds the target scalar: the value [R] of lines 92-97 for that
    transition, computed from the running return and the [last_q] the
    backward scan of its episode has when it reaches the transition.  So at
    most one coordinate differs, the chosen action's, and none does when the
    target scalar equals the predicted value. *)
Theorem C4_target_vector_shape fuel iter_no env g num n_steps lim gamma tau b :
  create_batch env_reset env_step predict_on_batch rng_random rng_draw
    fuel iter_no env g num n_steps lim gamma tau = Ok b →
  length (b_states b) = length (b_targets b) ∧
  ∃ eps, played_episodes env_reset env_step predict_on_batch rng_random
      rng_draw fuel (Z.to_nat num) lim gamma tau env g = Ok eps ∧
    ∀ k s t, b_states b !! k = Some s → b_targets b !! k = Some t →
      ∃ r i a reward seed R,
        r ∈ eps ∧
        pe_episode r !! i = Some (s, predict_on_batch s, a, reward) ∧
        length t = length (predict_on_batch s) ∧
        a < length (predict_on_batch s) ∧
        R_sum_init (pe_last_q r) = Ok seed ∧
        target_scalar n_steps gamma
          (R_after gamma seed (reverse (drop i (pe_episode r)))) reward
          (next_q (pe_episode r) (pe_last_q r) i) = Ok R ∧
        t !! a = Some R ∧
        (∀ j, j ≠ a → t !! j = predict_on_batch s !! j) ∧
        (∀ j, j ∈ differing (predict_on_batch s) t → j = a).
Proof.
  intros H.
  apply create_batch_Ok_inv in H
    as (samples & rewards & env' & g' & mx & Hloop & _ & ->). simpl.
  split; [by rewrite !length_fmap|].
  destruct (episodes_loop_Ok_inv _ _ _ _ _ _ _ _ _ _ _ _ _ _ _ _ _ _ _ Hloop)
    as (eps & Heps & _).
  exists eps. split; [done|]. intros k s t Hs Ht.
  rewrite list_lookup_fmap in Hs. rewrite list_lookup_fmap in Ht.
  destruct (_ !! k) as [[s' t']|] eqn:Hk; [|done].
  simpl in Hs, Ht. injection Hs as ->. injection Ht as ->.
  assert ((s, t) ∈ samples) as Hin.
  { rewrite <-(np_shuffle_perm rng_draw samples g').
    by eapply list_elem_of_lookup_2. }
  destruct (episodes_loop_elem _ _ _ _ _ _ _ _ _ _ _ _ _ _ _ _ _ _ _ _ _
              Hloop Heps Hin)
    as [Hnil|(r & seed & i & s0 & a & reward & R & Hr & Hseed & Hi & Ha & HR
              & Hsmp)].
  { by apply elem_of_nil in Hnil. }
  injection Hsmp as -> ->. exists r, i, a, reward, seed, R.
  repeat split; try done.
  - apply length_insert.
  - by apply list_lookup_insert_eq.
  - intros j Hj. by apply list_lookup_insert_ne.
  - apply differing_insert.
Qed.

(** C8: with an episode count of zero no episode is played, the list of
    per-episode rewards is empty, and evaluating its maximum for the log
    record raises [ValueError]: the statistic is not guarded. *)
Theorem C8_zero_episodes_raise fuel iter_no env g n_steps lim gamma tau :
  create_batch env_reset env_step predict_on_batch rng_random rng_draw
    fuel iter_no env g 0%Z n_steps lim gamma tau = Raise ValueError.
Proof. reflexivity. Qed.

End BatchClaims.

(** ** The epoch loop *)

Section EpochClaims.

Context {Obs Model : Type}.
Variable fit : list Obs → list (list Q) → Model → (Q * list Q) * Model.
Variable states : list Obs.
Variable targets : list (list Q).

Local Abbreviation loop := (epoch_loop fit).
Local Abbreviation ratio e m :=
  (ratio_exceeds (epoch_max fit states targets 0 m)
     (epoch_min fit states targets e m)).

(** Once [start_loss] is set, the loop stops after the first epoch whose
    minimum loss passes the test, or runs all remaining epochs. *)
Lemma epoch_loop_started epochs model s fits :
  let k := (loop epochs states targets model (Some s) fits).2 in
  fits ≤ k ≤ fits + epochs ∧
  (∀ j, fits + S j < k →
     ratio_exceeds s (epoch_min fit states targets j model) = false) ∧
  (k < fits + epochs →
     fits < k ∧
     ratio_exceeds s (epoch_min fit states targets (k - fits - 1) model) = true).
Proof.
  revert model fits. induction epochs as [|epochs IH]; intros model fits; simpl.
  - split; [lia|]. split; intros; lia.
  - destruct (fit states targets model) as [history model'] eqn:Hfit.
    assert (epoch_min fit states targets 0 model
            = min_scan history.1 history.2) as Hmin0.
    { unfold epoch_min, history_of. simpl. by rewrite Hfit. }
    assert (∀ j, epoch_min fit states targets (S j) model
                 = epoch_min fit states targets j model') as HminS.
    { intros j. unfold epoch_min, history_of. simpl. by rewrite Hfit. }
    destruct (ratio_exceeds s (min_scan history.1 history.2)) eqn:Hr; simpl.
    + split; [lia|]. split; [intros; lia|]. intros _. split; [lia|].
      replace (S fits - fits - 1) with 0 by lia. by rewrite Hmin0.
    + destruct (IH model' (S fits)) as (Hb & Hbefore & Hstop).
      set (k := (loop epochs states targets model' (Some s) (S fits)).2) in *.
      split; [lia|]. split.
      * intros [|j] Hj; [by rewrite Hmin0|]. rewrite HminS.
        apply Hbefore. lia.
      * intros Hk. destruct Hstop as [Hlt Hstop]; [lia|]. split; [lia|].
        replace (k - fits - 1) with (S (k - S fits - 1)) by lia.
        by rewrite HminS.
Qed.

Lemma epoch_loop_first epochs model fits :
  loop (S epochs) states targets model None fits
  = loop epochs states targets (fit states targets model).2
      (Some (max_scan (fit states targets model).1.1
                      (fit states targets model).1.2)) (S fits).
Proof. simpl. by destruct (fit states targets model). Qed.

(** C5, amended: a training iteration calls [fit] at most [epoch_limit]
    times; it stops early, after epoch [e] (counted from 0), exactly when
    [e] is the first epoch after the first one at which the ratio of the
    first epoch's maximum loss to that epoch's minimum loss exceeds 1.5; no
    test is made after the first epoch itself; when no later epoch passes the
    test, all [epoch_limit] epochs are run. *)
Theorem C5_epoch_loop model :
  let fits := (fit_batch fit states targets model).2 in
  2 ≤ fits ≤ epoch_limit ∧
  (∀ e, S e < epoch_limit →
     (fits = S e ↔
      1 ≤ e ∧ exceeds fit states targets e model = true ∧
      ∀ j, 1 ≤ j < e → exceeds fit states targets j model = false)) ∧
  (fits = epoch_limit ↔
   ∀ e, 1 ≤ e → S e < epoch_limit →
     exceeds fit states targets e model = false).
Proof.
  unfold fit_batch, epoch_limit, exceeds. rewrite epoch_loop_first.
  set (model' := (fit states targets model).2).
  assert (∀ j, epoch_min fit states targets (S j) model
               = epoch_min fit states targets j model') as HminS by done.
  change (epoch_max fit states targets 0 model)
    with (max_scan (fit states targets model).1.1 (fit states targets model).1.2).
  set (s := max_scan _ _).
  destruct (epoch_loop_started 9 model' s 1) as (Hb & Hbefore & Hstop).
  set (k := (loop 9 states targets model' (Some s) 1).2) in *.
  assert (k < 10 → 2 ≤ k) as Hk2.
  { intros Hlt. destruct Hstop as [? _]; lia. }
  split; [lia|]. split.
  - intros e He. split.
    + intros ->. destruct Hstop as [_ Hstop]; [lia|].
      destruct e as [|e]; [lia|]. split; [lia|]. split.
      * rewrite HminS. by replace (S (S e) - 1 - 1) with e in Hstop by lia.
      * intros [|j] Hj; [lia|]. rewrite HminS. apply Hbefore. lia.
    + intros (He1 & Hex & Hprev). destruct e as [|e]; [lia|].
      rewrite HminS in Hex.
      destruct (decide (k = S (S e))) as [|Hne]; [done|]. exfalso.
      destruct (decide (k < S (S e))) as [Hlt|Hge].
      * destruct Hstop as [Hk1 Hstop]; [lia|].
        specialize (Hprev (k - 1)). rewrite <-(Nat.succ_pred_pos (k - 1)) in Hprev by lia.
        rewrite HminS in Hprev.
        replace (Nat.pred (k - 1)) with (k - 1 - 1) in Hprev by lia.
        rewrite Hprev in Hstop; [done | lia].
      * rewrite Hbefore in Hex; [done | lia].
  - split.
    + intros Hk [|e] He1 He; [lia|]. rewrite HminS. apply Hbefore. lia.
    + intros Hall. destruct (decide (k = 10)) as [|Hne]; [done|]. exfalso.
      destruct Hstop as [Hk1 Hstop]; [lia|].
      specialize (Hall (k - 1)). rewrite <-(Nat.succ_pred_pos (k - 1)) in Hall by lia.
      rewrite HminS in Hall.
      replace (Nat.pred (k - 1)) with (k - 1 - 1) in Hall by lia.
      rewrite Hall in Hstop; [done | lia | lia].
Qed.

End EpochClaims.

(** ** Concrete runs *)

(** The scenario of the specification: reward 1 at every step, done after
    exactly 3 steps, gamma = 1, n-step mode, tau = 0.  The three targets are
    3, 2 and 1 (in the order the shuffle leaves them). *)
Example scenario_three_steps :
  Stub.batch_of 3 3 1 true (Some 300%Z) 1 0
  = Ok (Batch [0; 0; 0] [[3%Q; 0%Q]; [2%Q; 0%Q]; [1%Q; 0%Q]]
          (LogRecord 0 3 (Some 3%Q) 3%Q) 3 2).
Proof. vm_compute. reflexivity. Qed.

(** Without a cap and with an environment that never reports done, the
    play loop uses up any amount of fuel. *)
Lemma never_done_diverges_from fuel env step sr ep :
  play_loop (Stub.env_step 0) Stub.predict Stub.rng_random Stub.rng_draw
    fuel None 1 0 env 0 0 step sr ep = OutOfFuel.
Proof.
  revert env step sr ep.
  induction fuel as [|fuel IH]; intros env step sr ep; [done|].
  simpl. apply IH.
Qed.

Example never_done_diverges fuel : Stub.play 0 fuel None 1 0 = OutOfFuel.
Proof. apply never_done_diverges_from. Qed.

(** C1 as stated fails on an episode the step cap cuts off.  The stub
    environment never reports done and the cap is 2: the two rewards sum to
    2, but the first transition's target is 3, the sum plus the maximum 1 of
    the prediction at the cutoff state. *)
Lemma C1_counterexample_capped_episode :
  ∃ r ss smp R,
    Stub.play 0 2 (Some 2%Z) 1 0 = Ok r ∧
    episode_targets true 1 (pe_episode r) (pe_last_q r) [] = Ok ss ∧
    head (pe_episode r) = Some (0, Stub.predict 0, 0, 1%Q) ∧
    sample_of ss 0 = Some smp ∧ smp.1 = 0 ∧ target_at smp 0 = Some R ∧
    (R == 3)%Q ∧ (sum_rewards (pe_episode r) == 2)%Q ∧
    ¬ (R == sum_rewards (pe_episode r))%Q.
Proof.
  eexists _, _, _, _.
  split; [vm_compute; reflexivity|]. split; [vm_compute; reflexivity|]. split; [vm_compute; reflexivity|].
  split; [vm_compute; reflexivity|]. split; [vm_compute; reflexivity|].
  split; [vm_compute; reflexivity|]. split; [vm_compute; reflexivity|].
  split; [vm_compute; reflexivity|].
  intros H. vm_compute in H. discriminate H.
Qed.

Lemma C1_witness_natural_end :
  ∃ r ss,
    Stub.play 3 3 None 1 0 = Ok r ∧
    episode_targets true 1 (pe_episode r) (pe_last_q r) [] = Ok ss ∧
    ∃ new s q a reward smp R,
      ss = [] ++ new ∧
      head (pe_episode r) = Some (s, q, a, reward) ∧
      sample_of new 0 = Some smp ∧ last ss = Some smp ∧ smp.1 = s ∧
      target_at smp a = Some R ∧
      (pe_done r = true → (R == sum_rewards (pe_episode r))%Q) ∧
      (pe_done r = false →
         ∃ m, py_max (Stub.predict (pe_state r)) = Ok m ∧
              (R == sum_rewards (pe_episode r) + m)%Q).
Proof.
  eexists _, _. split; [vm_compute; reflexivity|]. split; [vm_compute; reflexivity|].
  eapply (C1_first_target_undiscounted (Stub.env_step 3) Stub.predict
            Stub.rng_random Stub.rng_draw 3 None 1 0 0 0 0 0%Z 0%Q []);
    reflexivity.
Defined.

Lemma C2_witness_three_steps :
  ∃ r ss,
    Stub.play 3 3 None 1 0 = Ok r ∧
    episode_targets false 1 (pe_episode r) (pe_last_q r) [] = Ok ss ∧
    ∃ new, ss = [] ++ new ∧ length new = length (pe_episode r) ∧
      ∀ i s q a reward, pe_episode r !! i = Some (s, q, a, reward) →
        (∀ s' q' a' reward', pe_episode r !! S i = Some (s', q', a', reward') →
           ∃ m smp, py_max q' = Ok m ∧ sample_of new i = Some smp ∧
                    smp.1 = s ∧ target_at smp a = Some (reward + 1 * m)%Q)
        ∧
        (S i = length (pe_episode r) → pe_done r = true →
           ∃ smp, sample_of new i = Some smp ∧ smp.1 = s ∧
                  target_at smp a = Some reward).
Proof.
  eexists _, _. split; [vm_compute; reflexivity|]. split; [vm_compute; reflexivity|].
  eapply (C2_one_step_targets (Stub.env_step 3) Stub.predict
            Stub.rng_random Stub.rng_draw 3 None 1 0 0 0 0 0%Z 0%Q []);
    reflexivity.
Defined.

Lemma C3_witness_both_exits :
  ∃ r r',
    Stub.play 3 3 None 1 0 = Ok r ∧ pe_done r = true ∧
    R_sum_init (pe_last_q r) = Ok 0%Q ∧
    Stub.play 3 2 (Some 2%Z) 1 0 = Ok r' ∧ pe_done r' = false ∧
    R_sum_init (pe_last_q r') = py_max (Stub.predict (pe_state r')).
Proof.
  eexists _, _.
  split; [vm_compute; reflexivity|]. split; [reflexivity|].
  split; [|split; [vm_compute; reflexivity|split; [reflexivity|]]].
  - refine (proj1 (proj1 (proj2
      (C3_running_return_seed (Stub.env_step 3) Stub.predict Stub.rng_random
         Stub.rng_draw 3 None 1 0 0 0 0 0%Z 0%Q [] _ true [] _)) _));
      reflexivity.
  - refine (proj1 (proj2 (proj2 (proj2
      (C3_running_return_seed (Stub.env_step 3) Stub.predict Stub.rng_random
         Stub.rng_draw 2 (Some 2%Z) 1 0 0 0 0 0%Z 0%Q [] _ true [] _)) _)));
      reflexivity.
Defined.

(** C4 as stated fails when the target scalar equals the prediction it
    replaces.  One episode of one step, 1-step mode: the prediction is
    [[1; 0]], the greedy action 0 earns reward 1 and the episode is done, so
    the target vector is [[1; 0]] again and no coordinate differs. *)
Lemma C4_counterexample_no_coordinate_differs :
  ∃ b t,
    Stub.batch_of 1 1 1 false None 1 0 = Ok b ∧
    b_states b = [0] ∧ b_targets b = [t] ∧
    t = Stub.predict 0 ∧
    differing (Stub.predict 0) t = [] ∧
    length (differing (Stub.predict 0) t) ≠ 1.
Proof.
  eexists _, _. split; [vm_compute; reflexivity|].
  split; [vm_compute; reflexivity|]. split; [vm_compute; reflexivity|]. split; [vm_compute; reflexivity|].
  split; [vm_compute; reflexivity|]. vm_compute. discriminate.
Qed.

Lemma C4_witness_two_episodes :
  ∃ b,
    Stub.batch_of 3 3 2 true (Some 300%Z) 1 0 = Ok b ∧
    length (b_states b) = length (b_targets b) ∧
    ∃ eps,
      played_episodes Stub.env_reset (Stub.env_step 3) Stub.predict
        Stub.rng_random Stub.rng_draw 3 (Z.to_nat 2) (Some 300%Z) 1 0 0 0
        = Ok eps ∧
      ∀ k s t, b_states b !! k = Some s → b_targets b !! k = Some t →
        ∃ r i a reward seed R,
          r ∈ eps ∧
          pe_episode r !! i = Some (s, Stub.predict s, a, reward) ∧
          length t = length (Stub.predict s) ∧
          a < length (Stub.predict s) ∧
          R_sum_init (pe_last_q r) = Ok seed ∧
          target_scalar true 1
            (R_after 1 seed (reverse (drop i (pe_episode r)))) reward
            (next_q (pe_episode r) (pe_last_q r) i) = Ok R ∧
          t !! a = Some R ∧
          (∀ j, j ≠ a → t !! j = Stub.predict s !! j) ∧
          (∀ j, j ∈ differing (Stub.predict s) t → j = a).
Proof.
  eexists. split; [vm_compute; reflexivity|].
  eapply (C4_target_vector_shape Stub.env_reset (Stub.env_step 3) Stub.predict
            Stub.rng_random Stub.rng_draw 3 0%Z 0 0 2%Z true (Some 300%Z) 1 0).
  vm_compute. reflexivity.
Defined.

(** C5 as stated fails at the first epoch.  The first [fit] call reports
    the losses [[3; 1]]: the ratio of its maximum to its minimum is 3, above
    1.5, yet the loop goes on, and as every later call reports [[3]] it runs
    all 10 epochs. *)
Lemma C5_counterexample_first_epoch :
  exceeds Stub.fit [] [] 0 0 = true ∧
  (fit_batch Stub.fit [] [] 0).2 = epoch_limit.
Proof. split; vm_compute; reflexivity. Qed.

Lemma C5_witness_early_stop : (fit_batch Stub.fit_improving [] [] 0).2 = 3.
Proof.
  destruct (C5_epoch_loop Stub.fit_improving [] [] 0) as (_ & Hearly & _).
  apply (Hearly 2); [unfold epoch_limit; lia|].
  split; [lia|]. split; [vm_compute; reflexivity|].
  intros j Hj. assert (j = 1) as -> by lia. reflexivity.
Defined.

Lemma C6_witness_two_episodes :
  ∃ b,
    Stub.batch_of 3 3 2 true (Some 300%Z) 1 0 = Ok b ∧
    ∃ eps,
      played_episodes Stub.env_reset (Stub.env_step 3) Stub.predict
        Stub.rng_random Stub.rng_draw 3 (Z.to_nat 2) (Some 300%Z) 1 0 0 0
        = Ok eps ∧
      length eps = Z.to_nat 2 ∧
      length (b_states b) = sum_list (episode_lengths eps) ∧
      length (b_targets b) = sum_list (episode_lengths eps) ∧
      log_samples (b_log b) = sum_list (episode_lengths eps).
Proof.
  eexists. split; [vm_compute; reflexivity|].
  eapply (C6_sample_count Stub.env_reset (Stub.env_step 3) Stub.predict
            Stub.rng_random Stub.rng_draw 3 0%Z 0 0 2%Z true (Some 300%Z) 1 0).
  vm_compute. reflexivity.
Defined.

Lemma C7_witness_two_episodes :
  ∃ b,
    Stub.batch_of 3 3 2 true (Some 300%Z) 1 0 = Ok b ∧
    ∃ samples rewards env' g',
      episodes_loop Stub.env_reset (Stub.env_step 3) Stub.predict
        Stub.rng_random Stub.rng_draw 3 (Z.to_nat 2) true (Some 300%Z) 1 0
        0 0 [] [] = Ok (samples, rewards, env', g') ∧
      (np_shuffle Stub.rng_draw samples g').1 ≡ₚ samples ∧
      zip (b_states b) (b_targets b) = (np_shuffle Stub.rng_draw samples g').1 ∧
      zip (b_states b) (b_targets b) ≡ₚ samples ∧
      length (b_states b) = length (b_targets b).
Proof.
  eexists. split; [vm_compute; reflexivity|].
  eapply (C7_shuffle_permutation Stub.env_reset (Stub.env_step 3) Stub.predict
            Stub.rng_random Stub.rng_draw 3 0%Z 0 0 2%Z true (Some 300%Z) 1 0).
  vm_compute. reflexivity.
Defined.

Lemma C9_witness_capped_episode :
  ∃ r ss,
    Stub.play 0 2 (Some 2%Z) 1 0 = Ok r ∧ pe_done r = false ∧
    episode_targets false 1 (pe_episode r) (pe_last_q r) [] = Ok ss ∧
    ∃ new s q a reward m smp,
      ss = [] ++ new ∧
      last (pe_episode r) = Some (s, q, a, reward) ∧
      py_max (Stub.predict (pe_state r)) = Ok m ∧
      head new = Some smp ∧ smp.1 = s ∧
      sample_of new (length (pe_episode r) - 1) = Some smp ∧
      target_at smp a = Some (reward + 1 * m)%Q.
Proof.
  eexists _, _. split; [vm_compute; reflexivity|]. split; [vm_compute; reflexivity|].
  split; [vm_compute; reflexivity|].
  eapply (C9_one_step_cap_bootstrap (Stub.env_step 0) Stub.predict
            Stub.rng_random Stub.rng_draw 2 (Some 2%Z) 1 0 0 0 0 0%Z 0%Q []);
    reflexivity.
Defined.

Lemma C10_witness_cap_two :
  (0 < 2)%Z ∧ Z.to_nat 2 ≤ 2 ∧
  Stub.play 3 2 (Some 2%Z) 1 0 ≠ OutOfFuel ∧
  ∃ r, Stub.play 3 3 None 1 0 = Ok r ∧ pe_done r = true.
Proof.
  destruct (C10_play_loop_termination (Stub.env_step 3) Stub.predict
              Stub.rng_random Stub.rng_draw 2%Z 2 3 1 0 0 0 0 0%Q)
    as [[Hcap _] Hfree]; [lia | simpl; lia |].
  split; [lia|]. split; [simpl; lia|]. split; [exact Hcap|].
  eexists. split; [vm_compute; reflexivity|]. eapply Hfree. reflexivity.
Defined.

(** * Further properties of the batch builder and the training loop *)

(** ** The maximum and the greedy action *)

Lemma Qltb_true_lt x y : Qltb x y = true → (x < y)%Q.
Proof.
  unfold Qltb. intros H. apply negb_true_iff in H.
  apply Qnot_le_lt. intros Hle. apply Qle_bool_iff in Hle. congruence.
Qed.

Lemma Qltb_false_le x y : Qltb x y = false → (y <= x)%Q.
Proof.
  unfold Qltb. intros H. apply negb_false_iff in H. by apply Qle_bool_iff.
Qed.

Lemma max_scan_cons x y ys :
  max_scan x (y :: ys) = max_scan (if Qltb x y then y else x) ys.
Proof. reflexivity. Qed.

(** The scan returns one of the items, and no item is larger. *)
Lemma max_scan_elem x xs : max_scan x xs ∈ x :: xs.
Proof.
  revert x. induction xs as [|y ys IH]; intros x.
  - by left.
  - rewrite max_scan_cons. specialize (IH (if Qltb x y then y else x)).
    apply elem_of_cons in IH as [->|IH].
    + destruct (Qltb x y); [right; left | left].
    + by do 2 right.
Qed.

Lemma max_scan_upper x xs z : z ∈ x :: xs → (z <= max_scan x xs)%Q.
Proof.
  revert x z. induction xs as [|y ys IH]; intros x z Hz.
  - apply list_elem_of_singleton in Hz as ->. apply Qle_refl.
  - rewrite max_scan_cons.
    assert (x <= if Qltb x y then y else x)%Q as Hx.
    { destruct (Qltb x y) eqn:E; [|apply Qle_refl].
      by apply Qlt_le_weak, Qltb_true_lt. }
    assert (y <= if Qltb x y then y else x)%Q as Hy.
    { destruct (Qltb x y) eqn:E; [apply Qle_refl|]. by apply Qltb_false_le. }
    apply elem_of_cons in Hz as [->|Hz].
    + eapply Qle_trans; [exact Hx|]. apply IH. by left.
    + apply elem_of_cons in Hz as [->|Hz].
      * eapply Qle_trans; [exact Hy|]. apply IH. by left.
      * apply IH. by right.
Qed.

(** The index scan and the value scan follow the same comparisons. *)
Lemma argmax_scan_lookup (pre xs : list Q) best_i best :
  pre !! best_i = Some best →
  (pre ++ xs) !! argmax_scan best_i best (length pre) xs
  = Some (max_scan best xs).
Proof.
  revert pre best_i best.
  induction xs as [|y ys IH]; intros pre best_i best Hbest.
  - simpl. rewrite app_nil_r. done.
  - rewrite max_scan_cons. simpl.
    replace (pre ++ y :: ys) with ((pre ++ [y]) ++ ys)
      by (by rewrite <-app_assoc).
    replace (S (length pre)) with (length (pre ++ [y]))
      by (rewrite length_app; simpl; lia).
    destruct (Qltb best y).
    + apply IH. rewrite lookup_app_r by lia.
      by rewrite Nat.sub_diag.
    + apply IH. rewrite lookup_app_l; [done|]. by eapply lookup_lt_Some.
Qed.

(** X1: when the draw of [np.random.random()] is not below [tau], the
    action chosen is the greedy one: its predicted value is [max(q_value)],
    no predicted value is larger, and the generator is only advanced by that
    one draw. *)
Theorem greedy_action_attains_max {Rng : Type} (rng_random : Rng → Q * Rng)
    (rng_draw : Rng → nat * Rng) tau q g a g' :
  Qltb (rng_random g).1 tau = false →
  choose_action rng_random rng_draw tau q g = Ok (a, g') →
  g' = (rng_random g).2 ∧
  ∃ m, py_max q = Ok m ∧ q !! a = Some m ∧
       ∀ j x, q !! j = Some x → (x <= m)%Q.
Proof.
  unfold choose_action. destruct (rng_random g) as [u g1]. simpl.
  intros -> H. destruct q as [|x xs]; [done|]. simpl in H.
  injection H as <- <-. split; [done|]. exists (max_scan x xs).
  split; [done|]. split.
  - apply (argmax_scan_lookup [x] xs 0 x). done.
  - intros j z Hj. apply max_scan_upper. by eapply list_elem_of_lookup_2.
Qed.

Lemma greedy_action_witness :
  Qltb (Stub.rng_random 0).1 0 = false ∧
  choose_action Stub.rng_random Stub.rng_draw 0 [0%Q; 2%Q; 2%Q] 0 = Ok (1, 0) ∧
  0 = (Stub.rng_random 0).2 ∧
  ∃ m, py_max [0%Q; 2%Q; 2%Q] = Ok m ∧ [0%Q; 2%Q; 2%Q] !! 1 = Some m ∧
       ∀ j x, [0%Q; 2%Q; 2%Q] !! j = Some x → (x <= m)%Q.
Proof.
  split; [reflexivity|]. split; [reflexivity|].
  apply (greedy_action_attains_max Stub.rng_random Stub.rng_draw 0
           [0%Q; 2%Q; 2%Q] 0 1 0); reflexivity.
Defined.

(** ** n-step targets for any discount factor *)

Section NStep.

Context {Obs : Type}.
Implicit Types (ep : list (transition Obs)) (acc ss : list (sample Obs)).

Lemma R_after_drop gamma seed ep i s q a reward :
  ep !! i = Some (s, q, a, reward) →
  R_after gamma seed (reverse (drop i ep))
  = (R_after gamma seed (reverse (drop (S i) ep)) * gamma + reward)%Q.
Proof.
  intros Hi. rewrite (drop_S _ _ _ Hi), reverse_cons, R_after_app. done.
Qed.

(** X2: in n-step mode, for any discount factor, the target scalars of an
    episode obey the return recurrence: the target of a transition is gamma
    times the target of its successor plus its own reward, and the target
    of the last transition is gamma times the seed of the running return
    plus its reward. *)
Theorem n_step_target_recurrence gamma ep lq acc ss :
  episode_targets true gamma ep lq acc = Ok ss →
  ∃ seed new, R_sum_init lq = Ok seed ∧ ss = acc ++ new ∧
    ∀ i s q a reward, ep !! i = Some (s, q, a, reward) →
      ∃ smp R, sample_of new i = Some smp ∧ smp.1 = s ∧
        target_at smp a = Some R ∧
        (S i = length ep → R = (seed * gamma + reward)%Q) ∧
        (∀ s' q' a' reward', ep !! S i = Some (s', q', a', reward') →
           ∃ smp' R', sample_of new (S i) = Some smp' ∧
             target_at smp' a' = Some R' ∧ R = (R' * gamma + reward)%Q).
Proof.
  intros Ht.
  apply episode_targets_Ok_inv in Ht as (seed & new & Hseed & -> & Hlen & Hk).
  exists seed, new. split; [done|]. split; [done|].
  intros i s q a reward Hi.
  destruct (Hk i s q a reward Hi) as (Ha & R & HR & Hnew).
  simpl in HR. injection HR as <-.
  eexists _, _. split; [exact Hnew|]. split; [done|].
  split; [by apply target_at_insert|]. split.
  - intros Hlast. rewrite (R_after_drop _ _ _ _ _ _ _ _ Hi).
    rewrite drop_ge by lia. done.
  - intros s' q' a' reward' Hnext.
    destruct (Hk _ s' q' a' reward' Hnext) as (Ha' & R' & HR' & Hnew').
    simpl in HR'. injection HR' as <-.
    eexists _, _. split; [exact Hnew'|]. split; [by apply target_at_insert|].
    exact (R_after_drop _ _ _ _ _ _ _ _ Hi).
Qed.

(** X3: the two modes agree on the last transition of an episode: its
    n-step target and its 1-step target are the same number, the reward plus
    gamma times the bootstrap value, which is 0 after a natural end
    ([last_q] is [None]) and [max(last_q)] after a cut-off. *)
Theorem modes_agree_on_last_transition gamma ep lq acc ss_n ss_1 s q a reward :
  last ep = Some (s, q, a, reward) →
  episode_targets true gamma ep lq acc = Ok ss_n →
  episode_targets false gamma ep lq acc = Ok ss_1 →
  ∃ new_n new_1 R_n R_1 boot,
    ss_n = acc ++ new_n ∧ ss_1 = acc ++ new_1 ∧
    head new_n = Some (s, <[a:=R_n]> q) ∧
    head new_1 = Some (s, <[a:=R_1]> q) ∧
    (lq = None → boot = 0%Q) ∧
    (∀ v, lq = Some v → py_max v = Ok boot) ∧
    (R_n == reward + gamma * boot)%Q ∧
    (R_1 == reward + gamma * boot)%Q ∧
    (R_n == R_1)%Q.
Proof.
  intros Hlast Hn H1.
  apply episode_targets_Ok_inv in Hn as (seed & new_n & Hseed & -> & Hlen_n & Hkn).
  apply episode_targets_Ok_inv in H1 as (seed' & new_1 & Hseed' & -> & Hlen_1 & Hk1).
  rewrite Hseed in Hseed'. injection Hseed' as <-.
  pose proof Hlast as Hi. rewrite last_lookup in Hi.
  assert (0 < length ep) as Hpos by (destruct ep; [done | simpl; lia]).
  replace (pred (length ep)) with (length ep - 1) in Hi by lia.
  destruct (Hkn _ s q a reward Hi) as (_ & R_n & HRn & Hnew_n).
  destruct (Hk1 _ s q a reward Hi) as (_ & R_1 & HR1 & Hnew_1).
  rewrite reverse_lookup in Hnew_n by lia.
  rewrite reverse_lookup in Hnew_1 by lia.
  replace (length new_n - S (length ep - 1)) with 0 in Hnew_n by lia.
  replace (length new_1 - S (length ep - 1)) with 0 in Hnew_1 by lia.
  exists new_n, new_1, R_n, R_1, seed.
  rewrite !head_lookup. do 4 (split; [done|]).
  simpl in HRn. injection HRn as <-.
  rewrite (R_after_drop _ _ _ _ _ _ _ _ Hi).
  replace (S (length ep - 1)) with (length ep) by lia.
  rewrite drop_all. change (R_after gamma seed (reverse [])) with seed.
  rewrite next_q_last in HR1 by lia.
  destruct lq as [v|]; simpl in Hseed, HR1.
  - rewrite Hseed in HR1. simpl in HR1. injection HR1 as <-.
    split; [done|]. split; [by intros ? [= <-]|].
    repeat split; ring.
  - injection Hseed as <-. injection HR1 as <-.
    split; [done|]. split; [done|]. repeat split; ring.
Qed.

End NStep.

(** ** The play loop: what it records, what it raises *)

Section PlayMore.

Context {Obs Env Rng : Type}.
Variable env_reset : Env → Obs * Env.
Variable env_step : nat → Env → (Obs * Q * bool) * Env.
Variable predict_on_batch : Obs → list Q.
Variable rng_random : Rng → Q * Rng.
Variable rng_draw : Rng → nat * Rng.

Local Abbreviation play :=
  (play_loop env_step predict_on_batch rng_random rng_draw).

Lemma play_loop_genuine fuel lim gamma tau env g st step sr ep r :
  play fuel lim gamma tau env g st step sr ep = Ok r →
  ∃ new, pe_episode r = ep ++ new ∧
    genuine_run env_step predict_on_batch env st new ∧
    ∀ d, run_end env_step env st d new = (pe_state r, pe_done r, pe_env r).
Proof.
  revert env g st step sr ep.
  induction fuel as [|fuel IH]; intros env g st step sr ep H; simpl in H;
    [done|].
  bind_inv H. destruct a as [action g1].
  destruct (env_step action env) as [[[ns rew] d] env1] eqn:Hstep.
  destruct d.
  - injection H as <-. exists [(st, predict_on_batch st, action, rew)].
    simpl. rewrite Hstep. simpl. repeat split; done.
  - case_bool_decide.
    + injection H as <-. exists [(st, predict_on_batch st, action, rew)].
      simpl. rewrite Hstep. simpl. repeat split; done.
    + apply IH in H as (new & Hep & Hgen & Hend).
      exists ((st, predict_on_batch st, action, rew) :: new).
      rewrite Hep, <-app_assoc. simpl. rewrite Hstep. simpl.
      repeat split; done.
Qed.

(** X4: a played episode is a genuine run of the environment.  Its first
    transition starts at the state the loop was entered with; every
    transition starts at the state returned by the step before it, carries
    the model's prediction at that state and the reward of its own step; no
    step but the last reported done; and the loop ends with the state, the
    done flag and the environment of the last step. *)
Theorem played_episode_is_genuine_run fuel lim gamma tau env g st r :
  play fuel lim gamma tau env g st 0%Z 0%Q [] = Ok r →
  pe_episode r ≠ [] ∧
  genuine_run env_step predict_on_batch env st (pe_episode r) ∧
  run_end env_step env st false (pe_episode r)
  = (pe_state r, pe_done r, pe_env r).
Proof.
  intros H. pose proof H as H'.
  apply play_loop_Ok_inv in H' as (new' & Hep' & Hne & _).
  apply play_loop_genuine in H as (new & Hep & Hgen & Hend).
  simpl in Hep, Hep'. rewrite Hep. split; [congruence|]. split; [done|].
  apply Hend.
Qed.

Lemma sum_reward_undiscounted fuel lim tau env g st step sr ep r :
  play fuel lim 1 tau env g st step sr ep = Ok r →
  ∃ new, pe_episode r = ep ++ new ∧
         (pe_sum_reward r == sr + sum_rewards new)%Q.
Proof.
  revert env g st step sr ep.
  induction fuel as [|fuel IH]; intros env g st step sr ep H; simpl in H;
    [done|].
  bind_inv H. destruct a as [action g1].
  destruct (env_step action env) as [[[ns rew] d] env1].
  destruct d.
  - injection H as <-. exists [(st, predict_on_batch st, action, rew)].
    split; [done|]. simpl. unfold reward_of. simpl. ring.
  - case_bool_decide.
    + injection H as <-. exists [(st, predict_on_batch st, action, rew)].
      split; [done|]. simpl. unfold reward_of. simpl. ring.
    + apply IH in H as (new & Hep & Hsum).
      exists ((st, predict_on_batch st, action, rew) :: new).
      rewrite Hep, <-app_assoc. split; [done|].
      rewrite Hsum.
      change (sum_rewards ((st, predict_on_batch st, action, rew) :: new))
        with (rew + sum_rewards new)%Q.
      ring.
Qed.

(** X5: with discount factor 1, the [sum_reward] an episode contributes to
    the logged statistics is the sum of the rewards of its transitions. *)
Theorem logged_return_is_reward_sum fuel lim tau env g st r :
  play fuel lim 1 tau env g st 0%Z 0%Q [] = Ok r →
  (pe_sum_reward r == sum_rewards (pe_episode r))%Q.
Proof.
  intros H. apply sum_reward_undiscounted in H as (new & Hep & Hsum).
  simpl in Hep. rewrite Hep, Hsum. ring.
Qed.

(** X6: when the model predicts an empty vector at the current state, a
    pass of the play loop raises [ValueError], whatever the draw, before the
    environment is stepped. *)
Theorem empty_prediction_raises fuel lim gamma tau env g st step sr ep :
  predict_on_batch st = [] →
  play (S fuel) lim gamma tau env g st step sr ep = Raise ValueError.
Proof.
  intros Hq. simpl. rewrite Hq. unfold choose_action.
  destruct (rng_random g) as [u g1]. by destruct (Qltb u tau).
Qed.

Lemma play_loop_uncapped fuel n gamma tau env g st step sr ep :
  (n <= step)%Z →
  play fuel (Some n) gamma tau env g st step sr ep
  = play fuel None gamma tau env g st step sr ep.
Proof.
  revert env g st step sr ep.
  induction fuel as [|fuel IH]; intros env g st step sr ep Hn; [done|].
  simpl. destruct (choose_action _ _ _ _ _) as [[action g1]| |]; [|done..].
  simpl. destruct (env_step action env) as [[[ns rew] d] env1].
  destruct d; [done|].
  rewrite (bool_decide_eq_false_2 (Some n = Some (step + 1)%Z))
    by (intros [=]; lia).
  apply IH. lia.
Qed.

(** X7: a step cap of zero or below never fires, since the step counter is
    compared after it was incremented: the episode is played exactly as
    without a cap. *)
Theorem nonpositive_cap_is_no_cap fuel n gamma tau env g st sr :
  (n <= 0)%Z →
  play fuel (Some n) gamma tau env g st 0%Z sr []
  = play fuel None gamma tau env g st 0%Z sr [].
Proof. apply play_loop_uncapped. Qed.

Lemma play_loop_never_done fuel gamma tau env g st step sr ep :
  (∀ a e, (env_step a e).1.2 = false) →
  play fuel None gamma tau env g st step sr ep = OutOfFuel ∨
  play fuel None gamma tau env g st step sr ep = Raise ValueError.
Proof.
  intros Hnever. revert env g st step sr ep.
  induction fuel as [|fuel IH]; intros env g st step sr ep; [by left|].
  simpl. destruct (choose_action _ _ _ _ _) as [[action g1]|e|] eqn:Hc.
  - simpl. pose proof (Hnever action env) as Hd.
    destruct (env_step action env) as [[[ns rew] d] env1]. simpl in Hd.
    subst d. apply IH.
  - right. simpl. f_equal. unfold choose_action, randint0 in Hc.
    destruct (rng_random g) as [u g1]. destruct (Qltb u tau).
    + destruct (length (predict_on_batch st)); [congruence|].
      by destruct (rng_draw g1).
    + destruct (predict_on_batch st); simpl in Hc; congruence.
  - by destruct (choose_action_fuel rng_random rng_draw tau
                   (predict_on_batch st) g).
Qed.

Lemma play_loop_raises_ValueError fuel lim gamma tau env g st step sr ep e :
  play fuel lim gamma tau env g st step sr ep = Raise e → e = ValueError.
Proof.
  revert env g st step sr ep.
  induction fuel as [|fuel IH]; intros env g st step sr ep H; simpl in H;
    [done|].
  destruct (choose_action _ _ _ _ _) as [[action g1]|e'|] eqn:Hc;
    simpl in H; [| |done].
  - destruct (env_step action env) as [[[ns rew] d] env1].
    destruct d; [done|]. case_bool_decide; [done|]. by eapply IH.
  - injection H as <-. unfold choose_action, randint0 in Hc.
    destruct (rng_random g) as [u g1]. destruct (Qltb u tau).
    + destruct (length (predict_on_batch st)); [congruence|].
      by destruct (rng_draw g1).
    + destruct (predict_on_batch st); simpl in Hc; congruence.
Qed.

End PlayMore.

(** ** The batch: errors, size, log record, states *)

Lemma unroll_raises_ValueError {Obs : Type} n_steps gamma
    (l : list (transition Obs)) R lq acc e :
  Forall wf_transition l →
  unroll n_steps gamma l R lq acc = Raise e → e = ValueError.
Proof.
  intros Hwf. revert R lq acc.
  induction Hwf as [|[[[s q] a] r] l Hx Hwf IH]; intros R lq acc H;
    simpl in H; [done|].
  unfold wf_transition, action_of, q_of in Hx; simpl in Hx.
  destruct (target_scalar n_steps gamma (R * gamma + r) r lq) as [Rk|e'|] eqn:HR;
    simpl in H.
  - rewrite np_setitem_lt in H by done. simpl in H. by eapply IH.
  - injection H as <-. unfold target_scalar in HR.
    destruct n_steps; [done|]. destruct lq as [[|x v]|]; simpl in HR; congruence.
  - done.
Qed.

Lemma sum_list_bounds (l : list nat) lo hi :
  Forall (λ x, lo ≤ x ≤ hi) l →
  length l * lo ≤ sum_list l ≤ length l * hi.
Proof. induction 1; simpl; lia. Qed.

Lemma episode_targets_states {Obs : Type} n_steps gamma
    (ep : list (transition Obs)) lq acc ss :
  episode_targets n_steps gamma ep lq acc = Ok ss →
  ss.*1 = acc.*1 ++ reverse (state_of <$> ep).
Proof.
  intros Ht.
  apply episode_targets_Ok_inv in Ht as (seed & new & _ & -> & Hlen & Hk).
  rewrite fmap_app. f_equal.
  rewrite <-(reverse_involutive new), fmap_reverse. f_equal.
  apply list_eq. intros i. rewrite !list_lookup_fmap.
  destruct (ep !! i) as [[[[s q] a] r]|] eqn:Hi.
  - destruct (Hk i s q a r Hi) as (_ & Ri & _ & ->). done.
  - rewrite lookup_ge_None_2; [done|]. rewrite length_reverse, Hlen.
    by apply lookup_ge_None_1.
Qed.

Section BatchMore.

Context {Obs Env Rng : Type}.
Variable env_reset : Env → Obs * Env.
Variable env_step : nat → Env → (Obs * Q * bool) * Env.
Variable predict_on_batch : Obs → list Q.
Variable rng_random : Rng → Q * Rng.
Variable rng_draw : Rng → nat * Rng.

Local Abbreviation play :=
  (play_loop env_step predict_on_batch rng_random rng_draw).
Local Abbreviation episodes :=
  (episodes_loop env_reset env_step predict_on_batch rng_random rng_draw).
Local Abbreviation played :=
  (played_episodes env_reset env_step predict_on_batch rng_random rng_draw).

(** Each listed episode is the result of a play loop entered at step 0
    with nothing recorded. *)
Lemma played_episodes_Forall fuel count lim gamma tau env g eps :
  played fuel count lim gamma tau env g = Ok eps →
  Forall (λ r, ∃ env0 g0 st0,
            play fuel lim gamma tau env0 g0 st0 0%Z 0%Q [] = Ok r) eps.
Proof.
  revert env g eps. induction count as [|count IH]; intros env g eps H;
    simpl in H.
  - injection H as <-. constructor.
  - destruct (env_reset env) as [st env1]. bind_inv H. injection H as <-.
    constructor; [eauto|]. by eapply IH.
Qed.

Lemma episodes_loop_raises_ValueError fuel count n_steps lim gamma tau env g
    acc rw e :
  episodes fuel count n_steps lim gamma tau env g acc rw = Raise e →
  e = ValueError.
Proof.
  revert env g acc rw. induction count as [|count IH]; intros env g acc rw H;
    simpl in H; [done|].
  destruct (env_reset env) as [st env1].
  destruct (play fuel lim gamma tau env1 g st 0%Z 0%Q []) as [r|e'|] eqn:Hp;
    simpl in H; [| |done].
  - destruct (episode_targets _ _ _ _ _) as [ss|e'|] eqn:Ht; simpl in H;
      [by eapply IH| |done].
    injection H as <-. unfold episode_targets in Ht.
    destruct (R_sum_init (pe_last_q r)) as [seed|e''|] eqn:Hs; simpl in Ht.
    + apply unroll_raises_ValueError in Ht; [done|].
      apply play_loop_Ok_inv in Hp as (new & Hep & _ & Hwf & _).
      simpl in Hep. rewrite Hep. by apply Forall_reverse.
    + injection Ht as <-. unfold R_sum_init in Hs.
      destruct (pe_last_q r) as [[|x v]|]; simpl in Hs; congruence.
    + done.
  - injection H as <-. by eapply play_loop_raises_ValueError.
Qed.

Lemma episodes_loop_states fuel count n_steps lim gamma tau env g acc rw
    ss rs env' g' eps :
  episodes fuel count n_steps lim gamma tau env g acc rw = Ok (ss, rs, env', g') →
  played fuel count lim gamma tau env g = Ok eps →
  ss.*1 ≡ₚ acc.*1 ++ visited_states eps.
Proof.
  revert env g acc rw eps.
  induction count as [|count IH]; intros env g acc rw eps H Hp;
    simpl in H, Hp.
  - injection H as <- <- <- <-. injection Hp as <-.
    unfold visited_states. simpl. by rewrite app_nil_r.
  - destruct (env_reset env) as [st env1].
    bind_inv H. rename a into r, a0 into ss1. simpl in Hp. bind_inv Hp.
    injection Hp as <-.
    rewrite (IH _ _ _ _ _ H E1).
    rewrite (episode_targets_states _ _ _ _ _ _ E0).
    unfold visited_states. simpl. rewrite <-app_assoc.
    f_equiv. f_equiv; [apply reverse_Permutation | done].
Qed.

(** X8: the only exception a call of [create_batch] raises by itself is
    [ValueError]; in particular the write [target_q[action] = R] is always
    within bounds and never raises [IndexError]. *)
Theorem create_batch_raises_only_ValueError fuel iter_no env g num n_steps lim
    gamma tau e :
  create_batch env_reset env_step predict_on_batch rng_random rng_draw
    fuel iter_no env g num n_steps lim gamma tau = Raise e →
  e = ValueError.
Proof.
  unfold create_batch. intros H.
  destruct (episodes _ _ _ _ _ _ _ _ _ _) as [[[[ss rs] env'] g']|e'|] eqn:Hl;
    simpl in H; [| |done].
  - destruct rs as [|x rs]; simpl in H; [congruence|].
    by destruct (np_shuffle rng_draw ss g').
  - injection H as <-. by eapply episodes_loop_raises_ValueError.
Qed.

Lemma create_batch_never_done fuel iter_no env g num n_steps gamma tau :
  (∀ a e, (env_step a e).1.2 = false) →
  (∀ s, predict_on_batch s ≠ []) →
  (0 < num)%Z →
  create_batch env_reset env_step predict_on_batch rng_random rng_draw
    fuel iter_no env g num n_steps None gamma tau = OutOfFuel.
Proof.
  intros Hnever Hq Hnum. unfold create_batch.
  destruct (Z.to_nat num) as [|count] eqn:Hc; [lia|]. simpl.
  destruct (env_reset env) as [st env1].
  destruct (play_loop_never_done env_step predict_on_batch rng_random rng_draw
              fuel gamma tau env1 g st 0%Z 0%Q [] Hnever) as [->| Hr]; [done|].
  by apply play_loop_no_raise in Hr.
Qed.

(** X9: without a step cap, if the environment never reports done and the
    model always predicts at least one value, a call that plays at least one
    episode does not return: it exhausts any amount of fuel. *)
Theorem uncapped_never_done_diverges fuel iter_no env g num n_steps gamma tau :
  (∀ a e, (env_step a e).1.2 = false) →
  (∀ s, predict_on_batch s ≠ []) →
  (0 < num)%Z →
  create_batch env_reset env_step predict_on_batch rng_random rng_draw
    fuel iter_no env g num n_steps None gamma tau = OutOfFuel.
Proof. apply create_batch_never_done. Qed.

(** X10: a returned batch is never empty and its size is bounded by the
    episode count and the cap: at least one episode was played, the batch
    holds at least one sample per episode, and under a positive step cap [n]
    at most [n] samples per episode. *)
Theorem batch_size_bounds fuel iter_no env g num n_steps lim gamma tau b :
  create_batch env_reset env_step predict_on_batch rng_random rng_draw
    fuel iter_no env g num n_steps lim gamma tau = Ok b →
  1 ≤ Z.to_nat num ∧
  Z.to_nat num ≤ length (b_states b) ∧
  ∀ n, lim = Some n → (0 < n)%Z →
    length (b_states b) ≤ Z.to_nat num * Z.to_nat n.
Proof.
  intros H.
  apply create_batch_Ok_inv in H
    as (samples & rewards & env' & g' & mx & Hloop & Hmx & ->).
  apply episodes_loop_Ok_inv in Hloop as (eps & Heps & Hcount & Hlen & Hrs).
  simpl in Hlen, Hrs. simpl. rewrite length_fmap.
  rewrite (Permutation_length (np_shuffle_perm rng_draw samples g')).
  apply played_episodes_Forall in Heps as Hall.
  assert (Forall (λ x, 1 ≤ x) (episode_lengths eps)) as Hlow.
  { unfold episode_lengths. apply Forall_fmap.
    eapply Forall_impl; [exact Hall|]. intros r (env0 & g0 & st0 & Hr).
    apply play_loop_Ok_inv in Hr as (new & Hep & Hne & _). simpl in Hep.
    simpl. rewrite Hep. destruct new; [done | simpl; lia]. }
  assert (length (episode_lengths eps) = Z.to_nat num) as Hn
    by (unfold episode_lengths; by rewrite length_fmap).
  split.
  { destruct eps; [by subst | simpl in Hcount; lia]. }
  rewrite Hlen, <-Hn. split.
  - clear -Hlow. induction Hlow; simpl; lia.
  - intros n -> Hpos.
    assert (Forall (λ x, 0 ≤ x ≤ Z.to_nat n) (episode_lengths eps)) as Hb.
    { unfold episode_lengths. apply Forall_fmap.
      eapply Forall_impl; [exact Hall|]. intros r (env0 & g0 & st0 & Hr).
      pose proof (play_loop_step_le _ _ _ _ _ _ _ _ _ _ _ _ _ _ _ Hpos Hr).
      apply play_loop_Ok_inv in Hr as (new & Hep & _ & _ & _ & Hstep & _).
      simpl in Hep. simpl. rewrite Hep. lia. }
    apply sum_list_bounds in Hb. lia.
Qed.

(** X11: the logged maximum is the [sum_reward] of one of the played
    episodes and no played episode has a larger one; the logged mean is
    defined, the total of the episodes' [sum_reward] over their number. *)
Theorem log_record_statistics fuel iter_no env g num n_steps lim gamma tau b :
  create_batch env_reset env_step predict_on_batch rng_random rng_draw
    fuel iter_no env g num n_steps lim gamma tau = Ok b →
  ∃ eps, played_episodes env_reset env_step predict_on_batch rng_random
      rng_draw fuel (Z.to_nat num) lim gamma tau env g = Ok eps ∧
    log_iter (b_log b) = iter_no ∧
    (∃ r, r ∈ eps ∧ log_max (b_log b) = pe_sum_reward r) ∧
    (∀ r, r ∈ eps → (pe_sum_reward r <= log_max (b_log b))%Q) ∧
    log_mean (b_log b)
    = Some (fold_left Qplus (pe_sum_reward <$> eps) 0
            / inject_Z (Z.of_nat (length eps)))%Q.
Proof.
  intros H.
  apply create_batch_Ok_inv in H
    as (samples & rewards & env' & g' & mx & Hloop & Hmx & ->).
  apply episodes_loop_Ok_inv in Hloop as (eps & Heps & _ & _ & Hrs).
  simpl in Hrs. subst rewards. exists eps. simpl.
  split; [done|]. split; [done|].
  destruct eps as [|r0 eps]; [done|]. simpl in Hmx. injection Hmx as <-.
  split; [|split].
  3: { rewrite <-(length_fmap pe_sum_reward (r0 :: eps)). done. }
  - pose proof (max_scan_elem (pe_sum_reward r0) (pe_sum_reward <$> eps)) as Hin.
    change (max_scan (pe_sum_reward r0) (pe_sum_reward <$> eps)
            ∈ pe_sum_reward <$> (r0 :: eps)) in Hin.
    apply list_elem_of_fmap in Hin as (r & Hr & Hin). eauto.
  - intros r Hr. apply max_scan_upper.
    change (pe_sum_reward r ∈ pe_sum_reward <$> (r0 :: eps)).
    by apply list_elem_of_fmap_2.
Qed.

(** X12: the states of a returned batch are, up to order, exactly the states
    at which the played episodes chose their actions. *)
Theorem batch_states_are_visited_states fuel iter_no env g num n_steps lim
    gamma tau b :
  create_batch env_reset env_step predict_on_batch rng_random rng_draw
    fuel iter_no env g num n_steps lim gamma tau = Ok b →
  ∃ eps, played_episodes env_reset env_step predict_on_batch rng_random
      rng_draw fuel (Z.to_nat num) lim gamma tau env g = Ok eps ∧
    b_states b ≡ₚ visited_states eps.
Proof.
  intros H.
  apply create_batch_Ok_inv in H
    as (samples & rewards & env' & g' & mx & Hloop & _ & ->).
  destruct (episodes_loop_Ok_inv _ _ _ _ _ _ _ _ _ _ _ _ _ _ _ _ _ _ _ Hloop)
    as (eps & Heps & _).
  exists eps. split; [done|]. simpl.
  rewrite (np_shuffle_perm rng_draw samples g').
  by rewrite (episodes_loop_states _ _ _ _ _ _ _ _ _ _ _ _ _ _ _ Hloop Heps).
Qed.

End BatchMore.

(** ** The training loop *)

Section TrainingMore.

Context {Obs Env Rng Model : Type}.
Variable env_reset : Env → Obs * Env.
Variable env_step : nat → Env → (Obs * Q * bool) * Env.
Variable rng_random : Rng → Q * Rng.
Variable rng_draw : Rng → nat * Rng.
Variable predict : Model → Obs → list Q.
Variable fit : list Obs → list (list Q) → Model → (Q * list Q) * Model.

Lemma epoch_loop_model epochs states targets model start_loss fits :
  fits ≤ (epoch_loop fit epochs states targets model start_loss fits).2 ∧
  (epoch_loop fit epochs states targets model start_loss fits).1
  = model_before fit states targets
      ((epoch_loop fit epochs states targets model start_loss fits).2 - fits)
      model.
Proof.
  revert model start_loss fits.
  induction epochs as [|epochs IH]; intros model start_loss fits; simpl.
  - rewrite Nat.sub_diag. done.
  - destruct (fit states targets model) as [history model'] eqn:Hfit.
    assert (∀ k, model_before fit states targets (S k) model
                 = model_before fit states targets k model') as HS.
    { intros k. simpl. by rewrite Hfit. }
    destruct start_loss as [s|].
    + destruct (ratio_exceeds s (min_scan history.1 history.2)); simpl.
      * split; [lia|]. replace (S fits - fits) with 1 by lia. by rewrite HS.
      * destruct (IH model' (Some s) (S fits)) as [Hle ->].
        split; [lia|].
        replace (_ - fits) with (S ((epoch_loop fit epochs states targets
          model' (Some s) (S fits)).2 - S fits)) by lia.
        by rewrite HS.
    + destruct (IH model' (Some (max_scan history.1 history.2)) (S fits))
        as [Hle ->].
      split; [lia|].
      replace (_ - fits) with (S ((epoch_loop fit epochs states targets
        model' (Some (max_scan history.1 history.2)) (S fits)).2 - S fits))
        by lia.
      by rewrite HS.
Qed.

(** X14: the model a training iteration ends with is the model after exactly
    as many successive [fit] calls on the batch as epochs were run, each
    call starting from the parameters the previous one left. *)
Theorem fit_batch_model states targets model :
  (fit_batch fit states targets model).1
  = model_before fit states targets (fit_batch fit states targets model).2
      model.
Proof.
  unfold fit_batch.
  destruct (epoch_loop_model epoch_limit states targets model None 0)
    as [_ ->].
  by rewrite Nat.sub_0_r.
Qed.

(** X15: without a monitor directory the step cap is 300, and then every
    run of the training loop completes, for any number of iterations, as long
    as the model always predicts at least one action value: fuel 300 per
    episode is enough and no exception is raised. *)
Theorem train_loop_completes fuel iters iter n_steps tau env g model :
  (∀ m s, predict m s ≠ []) →
  300 ≤ fuel →
  ∃ model' env' g',
    train_loop Obs Env Rng Model env_reset env_step rng_random rng_draw predict
      fit
      fuel iters iter n_steps tau false env g model = Ok (model', env', g').
Proof.
  intros Hq Hfuel. revert iter env g model.
  induction iters as [|iters IH]; intros iter env g model; simpl; [eauto|].
  destruct (create_batch_total env_reset env_step (predict model) rng_random
              rng_draw fuel iter env g 20%Z n_steps 300%Z 1%Q tau)
    as [b Hb]; [apply Hq | lia | lia | lia |].
  unfold step_limit. rewrite Hb. simpl.
  destruct (fit_batch fit (b_states b) (b_targets b) model) as [model1 fits].
  apply IH.
Qed.

(** X16: with a monitor directory there is no step cap, and if the
    environment never reports done the first batch of the training loop is
    never completed: any amount of fuel is exhausted. *)
Theorem train_loop_monitor_diverges fuel iters iter n_steps tau env g model :
  (∀ a e, (env_step a e).1.2 = false) →
  (∀ m s, predict m s ≠ []) →
  train_loop Obs Env Rng Model env_reset env_step rng_random rng_draw predict
      fit
    fuel (S iters) iter n_steps tau true env g model = OutOfFuel.
Proof.
  intros Hnever Hq. simpl. unfold step_limit.
  rewrite create_batch_never_done; [done | done | apply Hq | lia].
Qed.

End TrainingMore.

(** ** Discounted returns *)

Lemma discounted_sum_snoc gamma rs r :
  (discounted_sum gamma (reverse (rs ++ [r]))
   == r + gamma * discounted_sum gamma (reverse rs))%Q.
Proof. rewrite reverse_snoc. simpl. reflexivity. Qed.

Lemma R_after_discounted {Obs : Type} gamma (ep : list (transition Obs)) :
  (R_after gamma 0 (reverse ep) == discounted_sum gamma (reward_of <$> ep))%Q.
Proof.
  induction ep as [|tr ep IH]; [reflexivity|].
  rewrite reverse_cons, R_after_app, fmap_cons.
  change (discounted_sum gamma (reward_of tr :: (reward_of <$> ep)))
    with (reward_of tr + gamma * discounted_sum gamma (reward_of <$> ep))%Q.
  change (R_after gamma (R_after gamma 0 (reverse ep)) [tr])
    with (R_after gamma 0 (reverse ep) * gamma + reward_of tr)%Q.
  rewrite IH. ring.
Qed.

(** X18: in n-step mode, for any discount factor, the target scalar of the
    first transition of an episode that ended naturally ([last_q] is [None])
    is the discounted return of the episode: its rewards weighted by 1,
    gamma, gamma squared, ... in the order received. *)
Theorem first_target_is_discounted_return {Obs : Type} gamma
    (ep : list (transition Obs)) acc ss s q a reward rest :
  ep = (s, q, a, reward) :: rest →
  episode_targets true gamma ep None acc = Ok ss →
  ∃ R, last ss = Some (s, <[a:=R]> q) ∧ a < length q ∧
       (R == discounted_sum gamma (reward_of <$> ep))%Q.
Proof.
  intros Hep Ht.
  apply episode_targets_Ok_inv in Ht as (seed & new & Hseed & -> & Hlen & Hk).
  injection Hseed as <-.
  destruct (Hk 0 s q a reward) as (Ha & R & HR & Hnew); [by rewrite Hep|].
  simpl in HR. injection HR as <-. eexists. split; [|split; [done|]].
  - rewrite <-head_lookup, head_reverse in Hnew. by rewrite last_app, Hnew.
  - apply R_after_discounted.
Qed.

Section LoggedReturn.

Context {Obs Env Rng : Type}.
Variable env_step : nat → Env → (Obs * Q * bool) * Env.
Variable predict_on_batch : Obs → list Q.
Variable rng_random : Rng → Q * Rng.
Variable rng_draw : Rng → nat * Rng.

Local Abbreviation play :=
  (play_loop env_step predict_on_batch rng_random rng_draw).

Lemma sum_reward_invariant fuel lim gamma tau env g st step sr ep r :
  (sr == discounted_sum gamma (reverse (reward_of <$> ep)))%Q →
  play fuel lim gamma tau env g st step sr ep = Ok r →
  (pe_sum_reward r
   == discounted_sum gamma (reverse (reward_of <$> pe_episode r)))%Q.
Proof.
  revert env g st step sr ep.
  induction fuel as [|fuel IH]; intros env g st step sr ep Hsr H; simpl in H;
    [done|].
  bind_inv H. destruct a as [action g1].
  destruct (env_step action env) as [[[ns rew] d] env1].
  assert (rew + gamma * sr
          == discounted_sum gamma
               (reverse (reward_of <$> ep ++ [(st, predict_on_batch st, action, rew)])))%Q
    as Hnext.
  { rewrite fmap_app. simpl. rewrite discounted_sum_snoc, Hsr.
    unfold reward_of at 1. simpl. reflexivity. }
  destruct d; [by injection H as <-|].
  case_bool_decide; [by injection H as <-|]. by eapply IH.
Qed.

(** X19: the [sum_reward] an episode contributes to the logged statistics
    is, for any discount factor, the discounted sum of its rewards taken in
    reverse order: the last reward counts fully and the first one is
    discounted most. *)
Theorem logged_return_discounts_backwards fuel lim gamma tau env g st r :
  play fuel lim gamma tau env g st 0%Z 0%Q [] = Ok r →
  (pe_sum_reward r
   == discounted_sum gamma (reverse (reward_of <$> pe_episode r)))%Q.
Proof. apply sum_reward_invariant. reflexivity. Qed.

End LoggedReturn.

(** ** Concrete runs for the further properties *)

Lemma n_step_target_recurrence_witness :
  ∃ ss,
    episode_targets true (1 # 2)
      [(0, [1%Q; 0%Q], 0, 1%Q); (0, [1%Q; 0%Q], 0, 1%Q)] None [] = Ok ss ∧
    ∃ seed new, R_sum_init None = Ok seed ∧ ss = [] ++ new ∧
      ∀ i s q a reward,
        [(0, [1%Q; 0%Q], 0, 1%Q); (0, [1%Q; 0%Q], 0, 1%Q)] !! i
          = Some (s, q, a, reward) →
        ∃ smp R, sample_of new i = Some smp ∧ smp.1 = s ∧
          target_at smp a = Some R ∧
          (S i = 2 → R = (seed * (1 # 2) + reward)%Q) ∧
          (∀ s' q' a' reward',
             [(0, [1%Q; 0%Q], 0, 1%Q); (0, [1%Q; 0%Q], 0, 1%Q)] !! S i
               = Some (s', q', a', reward') →
             ∃ smp' R', sample_of new (S i) = Some smp' ∧
               target_at smp' a' = Some R' ∧ R = (R' * (1 # 2) + reward)%Q).
Proof.
  eexists. split; [vm_compute; reflexivity|].
  apply (n_step_target_recurrence (1 # 2)
           [(0, [1%Q; 0%Q], 0, 1%Q); (0, [1%Q; 0%Q], 0, 1%Q)] None []).
  reflexivity.
Defined.

Lemma modes_agree_witness :
  ∃ ss_n ss_1,
    last [(0, [1%Q; 0%Q], 0, 1%Q); (0, [1%Q; 0%Q], 1, 2%Q)]
      = Some (0, [1%Q; 0%Q], 1, 2%Q) ∧
    episode_targets true (1 # 2)
      [(0, [1%Q; 0%Q], 0, 1%Q); (0, [1%Q; 0%Q], 1, 2%Q)] (Some [3%Q; 4%Q]) []
      = Ok ss_n ∧
    episode_targets false (1 # 2)
      [(0, [1%Q; 0%Q], 0, 1%Q); (0, [1%Q; 0%Q], 1, 2%Q)] (Some [3%Q; 4%Q]) []
      = Ok ss_1 ∧
    ∃ new_n new_1 R_n R_1 boot,
      ss_n = [] ++ new_n ∧ ss_1 = [] ++ new_1 ∧
      head new_n = Some (0, <[1:=R_n]> [1%Q; 0%Q]) ∧
      head new_1 = Some (0, <[1:=R_1]> [1%Q; 0%Q]) ∧
      (Some [3%Q; 4%Q] = None → boot = 0%Q) ∧
      (∀ v, Some [3%Q; 4%Q] = Some v → py_max v = Ok boot) ∧
      (R_n == 2 + (1 # 2) * boot)%Q ∧
      (R_1 == 2 + (1 # 2) * boot)%Q ∧
      (R_n == R_1)%Q.
Proof.
  eexists _, _. split; [reflexivity|].
  split; [vm_compute; reflexivity|]. split; [vm_compute; reflexivity|].
  apply (modes_agree_on_last_transition (1 # 2)
           [(0, [1%Q; 0%Q], 0, 1%Q); (0, [1%Q; 0%Q], 1, 2%Q)]
           (Some [3%Q; 4%Q]) [] _ _ 0 [1%Q; 0%Q] 1 2%Q); reflexivity.
Defined.

Lemma first_target_discounted_witness :
  ∃ ss,
    episode_targets true (1 # 2)
      [(0, [1%Q; 0%Q], 0, 1%Q); (0, [1%Q; 0%Q], 1, 2%Q)] None [] = Ok ss ∧
    ∃ R, last ss = Some (0, <[0:=R]> [1%Q; 0%Q]) ∧ 0 < length [1%Q; 0%Q] ∧
      Qeq R (discounted_sum (1 # 2)
               (reward_of <$> ([(0, [1%Q; 0%Q], 0, 1%Q); (0, [1%Q; 0%Q], 1, 2%Q)]
                               : list (transition nat)))).
Proof.
  eexists. split; [vm_compute; reflexivity|].
  apply (first_target_is_discounted_return (1 # 2)
           [(0, [1%Q; 0%Q], 0, 1%Q); (0, [1%Q; 0%Q], 1, 2%Q)] [] _
           0 [1%Q; 0%Q] 0 1%Q [(0, [1%Q; 0%Q], 1, 2%Q)]); reflexivity.
Defined.

Lemma genuine_run_witness :
  ∃ r,
    Stub.play 3 3 None 1 0 = Ok r ∧
    pe_episode r ≠ [] ∧
    genuine_run (Stub.env_step 3) Stub.predict 0 0 (pe_episode r) ∧
    run_end (Stub.env_step 3) 0 0 false (pe_episode r)
    = (pe_state r, pe_done r, pe_env r).
Proof.
  eexists. split; [vm_compute; reflexivity|].
  apply (played_episode_is_genuine_run (Stub.env_step 3) Stub.predict
           Stub.rng_random Stub.rng_draw 3 None 1 0 0 0 0).
  reflexivity.
Defined.

Lemma logged_return_sum_witness :
  ∃ r,
    Stub.play 3 3 None 1 0 = Ok r ∧
    (pe_sum_reward r == sum_rewards (pe_episode r))%Q.
Proof.
  eexists. split; [vm_compute; reflexivity|].
  apply (logged_return_is_reward_sum (Stub.env_step 3) Stub.predict
           Stub.rng_random Stub.rng_draw 3 None 0 0 0 0).
  reflexivity.
Defined.

Lemma logged_return_backwards_witness :
  ∃ r,
    Stub.play 3 3 None (1 # 2) 0 = Ok r ∧
    (pe_sum_reward r
     == discounted_sum (1 # 2) (reverse (reward_of <$> pe_episode r)))%Q.
Proof.
  eexists. split; [vm_compute; reflexivity|].
  apply (logged_return_discounts_backwards (Stub.env_step 3) Stub.predict
           Stub.rng_random Stub.rng_draw 3 None (1 # 2) 0 0 0 0).
  reflexivity.
Defined.

Lemma empty_prediction_witness :
  (λ _ : nat, @nil Q) 0 = [] ∧
  play_loop (Stub.env_step 3) (λ _ : nat, @nil Q) Stub.rng_random
    Stub.rng_draw 1 None 1 0 0 0 0 0%Z 0%Q [] = Raise ValueError.
Proof.
  split; [reflexivity|].
  apply (empty_prediction_raises (Stub.env_step 3) (λ _ : nat, @nil Q)
           Stub.rng_random Stub.rng_draw 0 None 1 0 0 0 0 0%Z 0%Q []).
  reflexivity.
Defined.

Lemma nonpositive_cap_witness :
  (0 <= 0)%Z ∧ Stub.play 3 5 (Some 0%Z) 1 0 = Stub.play 3 5 None 1 0.
Proof.
  split; [lia|].
  apply (nonpositive_cap_is_no_cap (Stub.env_step 3) Stub.predict
           Stub.rng_random Stub.rng_draw 5 0%Z 1 0 0 0 0 0%Q).
  lia.
Defined.

Lemma raises_only_ValueError_witness :
  create_batch Stub.env_reset (Stub.env_step 3) (λ _ : nat, @nil Q)
    Stub.rng_random Stub.rng_draw 3 0%Z 0 0 1%Z true None 1 0
  = Raise ValueError ∧ ValueError = ValueError.
Proof.
  split; [reflexivity|].
  apply (create_batch_raises_only_ValueError Stub.env_reset (Stub.env_step 3)
           (λ _ : nat, @nil Q) Stub.rng_random Stub.rng_draw 3 0%Z 0 0 1%Z
           true None 1 0 ValueError).
  reflexivity.
Defined.

Lemma uncapped_diverges_witness :
  (∀ a e, (Stub.env_step 0 a e).1.2 = false) ∧
  (∀ s, Stub.predict s ≠ []) ∧ (0 < 1)%Z ∧
  Stub.batch_of 0 50 1 true None 1 0 = OutOfFuel.
Proof.
  split; [reflexivity|]. split; [discriminate|]. split; [lia|].
  apply (uncapped_never_done_diverges Stub.env_reset (Stub.env_step 0)
           Stub.predict Stub.rng_random Stub.rng_draw 50 0%Z 0 0 1%Z true 1 0);
    [reflexivity | discriminate | lia].
Defined.

Lemma batch_size_bounds_witness :
  ∃ b,
    Stub.batch_of 3 3 2 true (Some 2%Z) 1 0 = Ok b ∧
    1 ≤ Z.to_nat 2 ∧ Z.to_nat 2 ≤ length (b_states b) ∧
    ∀ n, Some 2%Z = Some n → (0 < n)%Z →
      length (b_states b) ≤ Z.to_nat 2 * Z.to_nat n.
Proof.
  eexists. split; [vm_compute; reflexivity|].
  apply (batch_size_bounds Stub.env_reset (Stub.env_step 3) Stub.predict
           Stub.rng_random Stub.rng_draw 3 0%Z 0 0 2%Z true (Some 2%Z) 1 0).
  vm_compute. reflexivity.
Defined.

Lemma log_record_witness :
  ∃ b,
    Stub.batch_of 3 3 2 true (Some 2%Z) 1 0 = Ok b ∧
    ∃ eps,
      played_episodes Stub.env_reset (Stub.env_step 3) Stub.predict
        Stub.rng_random Stub.rng_draw 3 (Z.to_nat 2) (Some 2%Z) 1 0 0 0
        = Ok eps ∧
      log_iter (b_log b) = 0%Z ∧
      (∃ r, r ∈ eps ∧ log_max (b_log b) = pe_sum_reward r) ∧
      (∀ r, r ∈ eps → (pe_sum_reward r <= log_max (b_log b))%Q) ∧
      log_mean (b_log b)
      = Some (fold_left Qplus (pe_sum_reward <$> eps) 0
              / inject_Z (Z.of_nat (length eps)))%Q.
Proof.
  eexists. split; [vm_compute; reflexivity|].
  apply (log_record_statistics Stub.env_reset (Stub.env_step 3) Stub.predict
           Stub.rng_random Stub.rng_draw 3 0%Z 0 0 2%Z true (Some 2%Z) 1 0).
  vm_compute. reflexivity.
Defined.

Lemma batch_states_witness :
  ∃ b,
    Stub.batch_of 3 3 2 true (Some 2%Z) 1 0 = Ok b ∧
    ∃ eps,
      played_episodes Stub.env_reset (Stub.env_step 3) Stub.predict
        Stub.rng_random Stub.rng_draw 3 (Z.to_nat 2) (Some 2%Z) 1 0 0 0
        = Ok eps ∧
      b_states b ≡ₚ visited_states eps.
Proof.
  eexists. split; [vm_compute; reflexivity|].
  apply (batch_states_are_visited_states Stub.env_reset (Stub.env_step 3)
           Stub.predict Stub.rng_random Stub.rng_draw 3 0%Z 0 0 2%Z true
           (Some 2%Z) 1 0).
  vm_compute. reflexivity.
Defined.

Lemma train_loop_completes_witness :
  (∀ (m : nat) (s : nat), Stub.predict s ≠ []) ∧ 300 ≤ 300 ∧
  ∃ model' env' g',
    train_loop nat nat nat nat Stub.env_reset (Stub.env_step 3)
      Stub.rng_random Stub.rng_draw (λ _ : nat, Stub.predict) Stub.fit
      300 2 0%Z true 0 false 0 0 0 = Ok (model', env', g').
Proof.
  split; [discriminate|]. split; [lia|].
  apply (train_loop_completes Stub.env_reset (Stub.env_step 3)
           Stub.rng_random Stub.rng_draw (λ _ : nat, Stub.predict) Stub.fit
           300 2 0%Z true 0 0 0 0); [discriminate | lia].
Defined.

Lemma train_loop_diverges_witness :
  (∀ a e, (Stub.env_step 0 a e).1.2 = false) ∧
  (∀ (m : nat) (s : nat), Stub.predict s ≠ []) ∧
  train_loop nat nat nat nat Stub.env_reset (Stub.env_step 0)
    Stub.rng_random Stub.rng_draw (λ _ : nat, Stub.predict) Stub.fit
    40 (S 0) 0%Z true 0 true 0 0 0 = OutOfFuel.
Proof.
  split; [reflexivity|]. split; [discriminate|].
  apply (train_loop_monitor_diverges Stub.env_reset (Stub.env_step 0)
           Stub.rng_random Stub.rng_draw (λ _ : nat, Stub.predict) Stub.fit
           40 0 0%Z true 0 0 0 0); [reflexivity | discriminate].
Defined.
